(** * js-assignments, task 08 (objects): the CSS selector builder and [fromJSON]

    A shallow embedding of [src/task/08-objects-tasks.js].

    JavaScript objects are mutable and are passed by reference: every method
    of [MySuperBaseElementSelector] mutates [this] in place and returns it.
    The embedding therefore keeps an explicit object store (a finite map from
    references to objects) and runs every method in a state-and-exception
    monad over that store.  An exception leaves the store as it was at the
    [throw]; nothing is rolled back. *)

From Stdlib Require Import ZArith Lia Bool Ascii.
From stdpp Require Import base option list sorting gmap strings.

Local Open Scope Z_scope.

(** ** The fragment of JavaScript values the builder manipulates

    [prev] holds a number ([-1] or a rank) or [undefined]; [canDuplicate] is
    [true] or an omitted argument, that is [undefined]. *)

Inductive jsval :=
  | JUndefined
  | JBool (b : bool)
  | JNum (z : Z).

#[global] Instance jsval_eq_dec : EqDecision jsval.
Proof. solve_decision. Defined.

(** ToNumber; [None] stands for NaN. *)
Definition to_number (v : jsval) : option Z :=
  match v with
  | JUndefined => None
  | JBool b => Some (if b then 1 else 0)
  | JNum z => Some z
  end.

(** ToBoolean. *)
Definition to_boolean (v : jsval) : bool :=
  match v with
  | JUndefined => false
  | JBool b => b
  | JNum z => negb (z =? 0)
  end.

(** [a > b]: both sides go through ToNumber, any comparison with NaN is false. *)
Definition js_gt (a b : jsval) : bool :=
  match to_number a, to_number b with
  | Some x, Some y => y <? x
  | _, _ => false
  end.

(** [a === b]: same type and same value, no coercion. *)
Definition js_strict_eq (a b : jsval) : bool :=
  match a, b with
  | JUndefined, JUndefined => true
  | JBool x, JBool y => eqb x y
  | JNum x, JNum y => x =? y
  | _, _ => false
  end.

(** [!v] *)
Definition js_not (v : jsval) : bool := negb (to_boolean v).

(** The double quote, for the texts that contain one. *)
Definition dq : string := String "034"%char EmptyString.

(** ** Objects, references, exceptions *)

Definition loc := positive.

Record Selector := mkSelector { line : string; prev : jsval }.

#[global] Instance Selector_eq_dec : EqDecision Selector.
Proof. solve_decision. Defined.

(** [throw new Error(message)], the [TypeError] the runtime raises when a
    property is read from something that is not an object or a prototype is
    set to something that cannot be one, and the [SyntaxError] of
    [JSON.parse]. *)
Inductive exn :=
  | Error (message : string)
  | TypeError
  | SyntaxError.

#[global] Instance exn_eq_dec : EqDecision exn.
Proof. solve_decision. Defined.

Inductive outcome (A : Type) :=
  | Return (a : A)
  | Throw (e : exn).
Arguments Return {A} a.
Arguments Throw {A} e.

(** A computation takes the store and gives an outcome and the store it
    leaves behind, also when it throws. *)
Definition state_exn (St A : Type) : Type := St → outcome A * St.

#[global] Instance state_exn_ret St : MRet (state_exn St) :=
  λ A a h, (Return a, h).
#[global] Instance state_exn_bind St : MBind (state_exn St) := λ A B f m h,
  match m h with
  | (Return a, h') => f a h'
  | (Throw e, h') => (Throw e, h')
  end.

Definition throw {St A} (e : exn) : state_exn St A := λ h, (Throw e, h).

(** The store of selector objects, and computations over it. *)
Abbreviation heap := (gmap loc Selector).
Abbreviation M := (state_exn heap).

Definition read_line (o : loc) : M string := λ h,
  match h !! o with
  | Some s => (Return (line s), h)
  | None => (Throw TypeError, h)
  end.

Definition read_prev (o : loc) : M jsval := λ h,
  match h !! o with
  | Some s => (Return (prev s), h)
  | None => (Throw TypeError, h)
  end.

Definition write_line (o : loc) (v : string) : M unit := λ h,
  match h !! o with
  | Some s => (Return tt, <[o := mkSelector v (prev s)]> h)
  | None => (Throw TypeError, h)
  end.

Definition write_prev (o : loc) (v : jsval) : M unit := λ h,
  match h !! o with
  | Some s => (Return tt, <[o := mkSelector (line s) v]> h)
  | None => (Throw TypeError, h)
  end.

(** ** [MySuperBaseElementSelector] *)

Definition order_message : string :=
  "Selector parts should be arranged in the following order: element, id, class, attribute, pseudo-class, pseudo-element".

Definition duplicate_message : string :=
  "Element, id and pseudo-element should not occur more then one time inside the selector".

(** The two failures of the builder.  The source raises both as a plain
    [Error]; they differ by their message. *)
Definition OrderError : exn := Error order_message.
Definition DuplicateError : exn := Error duplicate_message.

Module MySuperBaseElementSelector.

(** [new MySuperBaseElementSelector()]: a fresh object, [line = ''] and
    [prev = -1]. *)
Definition new : M loc := λ h,
  let this := fresh (dom h) in
  (Return this, <[this := mkSelector "" (JNum (-1))]> h).

Definition checkOnErrors (this : loc) (number canDuplicate : jsval) : M unit :=
  p ← read_prev this;
  if js_gt p number then throw (Error order_message)
  else
    p' ← read_prev this;
    if js_strict_eq p' number && js_not canDuplicate
    then throw (Error duplicate_message)
    else mret tt.

Definition setSelector (this : loc) (selector : string)
    (prev canDuplicate : jsval) : M loc :=
  checkOnErrors this prev canDuplicate;;
  write_prev this prev;;
  l ← read_line this;
  write_line this (l +:+ selector);;
  mret this.

Definition element (this : loc) (selector : string) : M loc :=
  setSelector this selector (JNum 1) JUndefined.

Definition id (this : loc) (selector : string) : M loc :=
  setSelector this ("#" +:+ selector) (JNum 2) JUndefined.

Definition class (this : loc) (selector : string) : M loc :=
  setSelector this ("." +:+ selector) (JNum 3) (JBool true).

Definition attr (this : loc) (selector : string) : M loc :=
  setSelector this ("[" +:+ selector +:+ "]") (JNum 4) (JBool true).

Definition pseudoClass (this : loc) (selector : string) : M loc :=
  setSelector this (":" +:+ selector) (JNum 5) (JBool true).

Definition pseudoElement (this : loc) (selector : string) : M loc :=
  setSelector this ("::" +:+ selector) (JNum 6) JUndefined.

(** The template literal reads [selector1.line] and [selector2.line] before
    [setSelector] runs; [setSelector] gets no rank and no flag. *)
Definition combine (this selector1 : loc) (combinator : string)
    (selector2 : loc) : M loc :=
  l1 ← read_line selector1;
  l2 ← read_line selector2;
  setSelector this (l1 +:+ " " +:+ combinator +:+ " " +:+ l2)
    JUndefined JUndefined.

Definition stringify (this : loc) : M string := read_line this.

End MySuperBaseElementSelector.

(** ** The facade [cssSelectorBuilder] *)

Module cssSelectorBuilder.
Import MySuperBaseElementSelector.

Definition element (value : string) : M loc :=
  this ← new; MySuperBaseElementSelector.element this value.

Definition id (value : string) : M loc :=
  this ← new; MySuperBaseElementSelector.id this value.

Definition class (value : string) : M loc :=
  this ← new; MySuperBaseElementSelector.class this value.

Definition attr (value : string) : M loc :=
  this ← new; MySuperBaseElementSelector.attr this value.

Definition pseudoClass (value : string) : M loc :=
  this ← new; MySuperBaseElementSelector.pseudoClass this value.

Definition pseudoElement (value : string) : M loc :=
  this ← new; MySuperBaseElementSelector.pseudoElement this value.

Definition combine (selector1 : loc) (combinator : string)
    (selector2 : loc) : M loc :=
  this ← new; MySuperBaseElementSelector.combine this selector1 combinator selector2.

End cssSelectorBuilder.

(** ** Calls, as a client of the builder issues them

    The six category methods, named by the category they append. *)

Inductive category :=
  | CElement | CId | CClass | CAttr | CPseudoClass | CPseudoElement.

#[global] Instance category_eq_dec : EqDecision category.
Proof. solve_decision. Defined.

Record call := Call { cat : category; text : string }.

(** [this.<category>(value)] *)
Definition invoke (this : loc) (c : call) : M loc :=
  match cat c with
  | CElement => MySuperBaseElementSelector.element this (text c)
  | CId => MySuperBaseElementSelector.id this (text c)
  | CClass => MySuperBaseElementSelector.class this (text c)
  | CAttr => MySuperBaseElementSelector.attr this (text c)
  | CPseudoClass => MySuperBaseElementSelector.pseudoClass this (text c)
  | CPseudoElement => MySuperBaseElementSelector.pseudoElement this (text c)
  end.

(** [cssSelectorBuilder.<category>(value)] *)
Definition facade (c : call) : M loc :=
  match cat c with
  | CElement => cssSelectorBuilder.element (text c)
  | CId => cssSelectorBuilder.id (text c)
  | CClass => cssSelectorBuilder.class (text c)
  | CAttr => cssSelectorBuilder.attr (text c)
  | CPseudoClass => cssSelectorBuilder.pseudoClass (text c)
  | CPseudoElement => cssSelectorBuilder.pseudoElement (text c)
  end.

(** A fluent chain [this.m1(v1).m2(v2)...]: each call is made on the
    reference the previous one returned; an exception ends the chain. *)
Fixpoint chain (this : loc) (cs : list call) : M loc :=
  match cs with
  | [] => mret this
  | c :: cs' => this' ← invoke this c; chain this' cs'
  end.

(** ** The vocabulary of the specification

    Ranks, duplicate flags and literal renderings as the specification's
    table of categories gives them. *)

Definition rank (c : category) : Z :=
  match c with
  | CElement => 1
  | CId => 2
  | CClass => 3
  | CAttr => 4
  | CPseudoClass => 5
  | CPseudoElement => 6
  end.

Definition allows_duplicates (c : category) : bool :=
  match c with
  | CClass | CAttr | CPseudoClass => true
  | CElement | CId | CPseudoElement => false
  end.

Definition rendering (c : call) : string :=
  match cat c with
  | CElement => text c
  | CId => "#" +:+ text c
  | CClass => "." +:+ text c
  | CAttr => "[" +:+ text c +:+ "]"
  | CPseudoClass => ":" +:+ text c
  | CPseudoElement => "::" +:+ text c
  end.

(** What a rendering puts before and after the text it is given. *)
Definition opening (c : category) : string :=
  match c with
  | CElement => ""
  | CId => "#"
  | CClass => "."
  | CAttr => "["
  | CPseudoClass => ":"
  | CPseudoElement => "::"
  end.

Definition closing (c : category) : string :=
  match c with
  | CAttr => "]"
  | _ => ""
  end.

Definition concat_all (l : list string) : string := foldr String.append "" l.

(** Ranks read in call order never go down. *)
Definition nondecreasing (cs : list category) : Prop :=
  ∀ (i j : nat) c c', (i < j)%nat →
    cs !! i = Some c → cs !! j = Some c' → rank c ≤ rank c'.

(** A rank occurs twice only for a category that allows duplicates. *)
Definition repeats_only_duplicable (cs : list category) : Prop :=
  ∀ (i j : nat) c c', (i < j)%nat →
    cs !! i = Some c → cs !! j = Some c' → rank c = rank c' →
    allows_duplicates c = true.

Definition valid_sequence (cs : list category) : Prop :=
  nondecreasing cs ∧ repeats_only_duplicable cs.

(** The same, pair by pair: [a] may come somewhere before [b]. *)
Definition may_precede (a b : category) : Prop :=
  rank a ≤ rank b ∧ (rank a = rank b → allows_duplicates a = true).

(** The two tests of [checkOnErrors] let a call of category [c] through
    when [prev] is [p]. *)
Definition passes (p : jsval) (c : category) : Prop :=
  js_gt p (JNum (rank c)) = false ∧
  js_strict_eq p (JNum (rank c)) && negb (allows_duplicates c) = false.

(** The specification's rule for the next call after rank [p]: a higher
    rank, or the same rank in a category that allows duplicates. *)
Definition legal_after (p : Z) (c : category) : Prop :=
  p < rank c ∨ (p = rank c ∧ allows_duplicates c = true).

(** The [prev] a chain of accepted calls leaves behind. *)
Definition last_prev (p : jsval) (cs : list call) : jsval :=
  match last cs with
  | Some c => JNum (rank (cat c))
  | None => p
  end.

(** ** Histories: a client that keeps one selector and goes on after a failure *)

Inductive op :=
  | OpAppend (c : call)
  | OpCombine (selector1 : loc) (combinator : string) (selector2 : loc)
  | OpStringify.

Inductive event :=
  | Accepted (c : category)
  | Combined.

(** One operation on [this], inside [try { ... } catch (e) { }]: what the
    selector accepted, and the store afterwards. *)
Definition perform (this : loc) (o : op) (h : heap) : list event * heap :=
  match o with
  | OpAppend c =>
      match invoke this c h with
      | (Return _, h') => ([Accepted (cat c)], h')
      | (Throw _, h') => ([], h')
      end
  | OpCombine a k b =>
      match MySuperBaseElementSelector.combine this a k b h with
      | (Return _, h') => ([Combined], h')
      | (Throw _, h') => ([], h')
      end
  | OpStringify => ([], (MySuperBaseElementSelector.stringify this h).2)
  end.

Fixpoint history (this : loc) (ops : list op) (h : heap) : list event * heap :=
  match ops with
  | [] => ([], h)
  | o :: ops' =>
      let '(es, h1) := perform this o h in
      let '(es', h2) := history this ops' h1 in
      (es ++ es', h2)
  end.

(** Every category the selector accepted, in call order. *)
Fixpoint accepted (es : list event) : list category :=
  match es with
  | [] => []
  | Accepted c :: es' => c :: accepted es'
  | Combined :: es' => accepted es'
  end.

(** The categories accepted since the last accepted [combine]. *)
Fixpoint since_combine (acc : list category) (es : list event) : list category :=
  match es with
  | [] => acc
  | Accepted c :: es' => since_combine (acc ++ [c]) es'
  | Combined :: es' => since_combine [] es'
  end.

(** What the accepted calls since the last [combine] and the selector's
    [prev] have to do with each other. *)
Definition tracks (seg : list category) (s : Selector) : Prop :=
  StronglySorted may_precede seg ∧
  match last seg with
  | Some c0 => prev s = JNum (rank c0)
  | None => prev s = JNum (-1) ∨ prev s = JUndefined
  end.

(** ** [fromJSON]

    [fromJSON] works on plain objects: a prototype link and own properties.
    They live in a store of their own. *)

Module Objects.

(** Numbers are restricted to integers, so NaN is not a value here. *)
Inductive value :=
  | VUndefined
  | VNull
  | VBool (b : bool)
  | VNum (n : Z)
  | VStr (s : string)
  | VObj (o : loc).

#[global] Instance value_eq_dec : EqDecision value.
Proof. solve_decision. Defined.

(** [prototype] is the internal slot [[Prototype]]: an object or null. *)
Record object := mkObject { prototype : option loc; own : gmap string value }.

Abbreviation store := (gmap loc object).

(** ToBoolean *)
Definition to_boolean (v : value) : bool :=
  match v with
  | VUndefined | VNull => false
  | VBool b => b
  | VNum n => negb (n =? 0)
  | VStr s => negb (bool_decide (s = ""))
  | VObj _ => true
  end.


(** A value that can be a prototype: an object or null. *)
Definition as_prototype (v : value) : option (option loc) :=
  match v with
  | VNull => Some None
  | VObj p => Some (Some p)
  | _ => None
  end.

(** [Object.setPrototypeOf(O, proto)], as ECMAScript defines it: [O] must
    not be undefined or null, [proto] must be an object or null, a
    primitive [O] is returned as it is.  The receiver in [fromJSON] is
    always a value [JSON.parse] has just built, an ordinary extensible
    object nothing else refers to, so the extensibility and cycle checks
    of [[SetPrototypeOf]] are not modelled. *)
Definition Object_setPrototypeOf (O proto : value) : state_exn store value :=
  match O with
  | VUndefined | VNull => throw TypeError
  | _ =>
      match as_prototype proto with
      | None => throw TypeError
      | Some p =>
          match O with
          | VObj o => λ st,
              match st !! o with
              | Some ob => (Return O, <[o := mkObject p (own ob)]> st)
              | None => (Throw TypeError, st)
              end
          | _ => mret O
          end
      end
  end.

(** Reading property [key] of an object: own properties first, then the
    prototype chain ([fuel] bounds the length of the chain walked). *)
Fixpoint Get (fuel : nat) (st : store) (o : option loc) (key : string) : value :=
  match fuel, o with
  | S n, Some l =>
      match st !! l with
      | Some ob =>
          match own ob !! key with
          | Some v => v
          | None => Get n st (prototype ob) key
          end
      | None => VUndefined
      end
  | _, _ => VUndefined
  end.

Section fromJSON.

(** [JSON.parse] belongs to the runtime, not to the repository.  What it
    does on a non-empty text is a parameter; the empty text is not a
    JSON text, and [JSON.parse('')] raises [SyntaxError]. *)
Variable parse_text : string → state_exn store value.

Definition JSON_parse (text : string) : state_exn store value :=
  if decide (text = "") then throw SyntaxError else parse_text text.

(** [json] is a string, as the function documents its parameter. *)
Definition fromJSON (proto : value) (json : string) : state_exn store value :=
  if negb (to_boolean (VStr json)) && negb (to_boolean proto)
  then mret VNull
  else
    obj ← JSON_parse json;
    Object_setPrototypeOf obj proto;;
    mret obj.

End fromJSON.

(** *** A sample store

    [Object.prototype] at 1, the function [getArea] at 2 and
    [Rectangle.prototype], whose only property is [getArea], at 3. *)
Definition sample_store : store :=
  {[ 1%positive := mkObject None ∅;
     2%positive := mkObject None ∅;
     3%positive := mkObject (Some 1%positive) {[ "getArea" := VObj 2%positive ]} ]}.

(** The text of the function's documentation; [dq] is the double quote. *)
Definition sample_text : string :=
  "{" +:+ dq +:+ "width" +:+ dq +:+ ":10, " +:+ dq +:+ "height" +:+ dq +:+ ":20}".

(** A stand-in for the runtime's parser that knows one text, the one of
    the function's documentation, and builds the object it denotes. *)
Definition sample_parse (text : string) : state_exn store value :=
  if decide (text = sample_text) then
    λ st, let o := fresh (dom st) in
          (Return (VObj o),
           <[o := mkObject (Some 1%positive)
                    {[ "width" := VNum 10; "height" := VNum 20 ]}]> st)
  else throw SyntaxError.

(** *** [Rectangle]

    [new Rectangle(width, height)] creates an ordinary object whose
    prototype is [Rectangle.prototype] and runs the constructor's two
    assignments on it.  [Rectangle.prototype] is an object of the store; its
    reference is an argument here. *)

Definition allocate (p : option loc) : state_exn store loc := λ st,
  let o := fresh (dom st) in
  (Return o, <[o := mkObject p ∅]> st).

(** [o.key = v]: the objects of this store have writable data properties
    only, so the assignment creates or overwrites an own property. *)
Definition set_property (o : loc) (key : string) (v : value)
    : state_exn store unit := λ st,
  match st !! o with
  | Some ob =>
      (Return tt, <[o := mkObject (prototype ob) (<[key := v]> (own ob))]> st)
  | None => (Throw TypeError, st)
  end.

Definition Rectangle (Rectangle_prototype : loc) (width height : value)
    : state_exn store value :=
  this ← allocate (Some Rectangle_prototype);
  set_property this "width" width;;
  set_property this "height" height;;
  mret (VObj this).

(** A stand-in for the runtime's parser on three texts that denote
    primitives: [5], [null] and [true]. *)
Definition literal_parse (text : string) : state_exn store value :=
  if decide (text = "5") then mret (VNum 5)
  else if decide (text = "null") then mret VNull
  else if decide (text = "true") then mret (VBool true)
  else throw SyntaxError.

End Objects.

(** * Properties of the builder *)

Lemma append_assoc (a b c : string) : (a +:+ b) +:+ c = a +:+ (b +:+ c).
Proof.
  induction a as [|x a IH]; [reflexivity|].
  change (String x ((a +:+ b) +:+ c) = String x (a +:+ (b +:+ c))).
  by rewrite IH.
Qed.

Lemma append_empty_r (a : string) : a +:+ "" = a.
Proof.
  induction a as [|x a IH]; [reflexivity|].
  change (String x (a +:+ "") = String x a).
  by rewrite IH.
Qed.

(** What a comparison against a rank says about a numeric [prev]. *)
Lemma js_gt_num (p r : Z) : js_gt (JNum p) (JNum r) = (r <? p).
Proof. reflexivity. Qed.

Lemma js_gt_undefined_r v : js_gt v JUndefined = false.
Proof. unfold js_gt. by destruct (to_number v). Qed.

Ltac run_monad :=
  unfold mbind, mret, state_exn_bind, state_exn_ret, throw,
    read_prev, read_line, write_prev, write_line.

(** [setSelector] in one step: the two checks, then both fields written. *)
Lemma setSelector_run (h : heap) this s sel n d :
  h !! this = Some s →
  MySuperBaseElementSelector.setSelector this sel n d h =
    if js_gt (prev s) n then (Throw OrderError, h)
    else if js_strict_eq (prev s) n && js_not d then (Throw DuplicateError, h)
    else (Return this, <[this := mkSelector (line s +:+ sel) n]> h).
Proof.
  intros Hs.
  unfold MySuperBaseElementSelector.setSelector,
    MySuperBaseElementSelector.checkOnErrors.
  run_monad. rewrite Hs.
  destruct (js_gt (prev s) n); [reflexivity|].
  rewrite Hs.
  destruct (js_strict_eq (prev s) n && js_not d); [reflexivity|].
  rewrite Hs, !lookup_insert_eq. cbn.
  by rewrite insert_insert_eq.
Qed.

(** On something that is not a selector the first property read fails. *)
Lemma setSelector_dangling (h : heap) this sel n d :
  h !! this = None →
  MySuperBaseElementSelector.setSelector this sel n d h = (Throw TypeError, h).
Proof.
  intros Hs.
  unfold MySuperBaseElementSelector.setSelector,
    MySuperBaseElementSelector.checkOnErrors.
  run_monad. by rewrite Hs.
Qed.

(** ** Valid sequences *)

Lemma rank_inj a b : rank a = rank b → a = b.
Proof. by destruct a, b. Qed.

Lemma rank_bounds c : 1 ≤ rank c ≤ 6.
Proof. destruct c; cbn; lia. Qed.

Lemma StronglySorted_lookup {A} (R : relation A) (l : list A) :
  StronglySorted R l ↔
  ∀ (i j : nat) x y, (i < j)%nat → l !! i = Some x → l !! j = Some y → R x y.
Proof.
  induction l as [|a l IH].
  - split; [|constructor]. intros _ i j x y _ Hi. by rewrite lookup_nil in Hi.
  - rewrite StronglySorted_cons, Forall_lookup, IH. split.
    + intros [Ha Hl] [|i] [|j] x y Hij Hi Hj; simplify_eq/=; try lia.
      * by eapply Ha.
      * eapply (Hl i j); [lia|done..].
    + intros H. split.
      * intros j y Hj. by apply (H 0%nat (S j) a y); [lia|..].
      * intros i j x y Hij Hi Hj. by apply (H (S i) (S j) x y); [lia|..].
Qed.

Lemma valid_sequence_sorted cs :
  valid_sequence cs ↔ StronglySorted may_precede cs.
Proof.
  rewrite StronglySorted_lookup. unfold valid_sequence, nondecreasing,
    repeats_only_duplicable, may_precede. split.
  - intros [H1 H2] i j x y ???. split; [by eapply H1|by eapply H2].
  - intros H. split; intros i j x y ???; by edestruct (H i j x y).
Qed.

#[global] Instance may_precede_dec : RelDecision may_precede.
Proof. intros a b. unfold may_precede. apply _. Defined.

#[global] Instance valid_sequence_dec cs : Decision (valid_sequence cs).
Proof.
  refine (cast_if (decide (StronglySorted may_precede cs)));
    by rewrite valid_sequence_sorted.
Defined.

(** ** Single calls *)

Lemma invoke_run (h : heap) this s c :
  h !! this = Some s →
  invoke this c h =
    if js_gt (prev s) (JNum (rank (cat c))) then (Throw OrderError, h)
    else if js_strict_eq (prev s) (JNum (rank (cat c)))
            && negb (allows_duplicates (cat c))
    then (Throw DuplicateError, h)
    else (Return this,
          <[this := mkSelector (line s +:+ rendering c) (JNum (rank (cat c)))]> h).
Proof.
  intros Hs. destruct c as [[] v]; unfold invoke, rendering; cbn;
    unfold MySuperBaseElementSelector.element, MySuperBaseElementSelector.id,
      MySuperBaseElementSelector.class, MySuperBaseElementSelector.attr,
      MySuperBaseElementSelector.pseudoClass,
      MySuperBaseElementSelector.pseudoElement;
    by rewrite (setSelector_run _ _ _ _ _ _ Hs).
Qed.

Lemma invoke_dangling (h : heap) this c :
  h !! this = None → invoke this c h = (Throw TypeError, h).
Proof.
  intros Hs. destruct c as [[] v]; unfold invoke; cbn;
    by apply setSelector_dangling.
Qed.

Lemma new_fresh (h : heap) : h !! fresh (dom h) = None.
Proof. apply not_elem_of_dom, is_fresh. Qed.

Lemma facade_run (h : heap) c :
  facade c h =
    invoke (fresh (dom h)) c (<[fresh (dom h) := mkSelector "" (JNum (-1))]> h).
Proof. by destruct c as [[] v]. Qed.

Lemma passes_first c : passes (JNum (-1)) c.
Proof. by destruct c. Qed.

Lemma passes_undefined c : passes JUndefined c.
Proof. by destruct c. Qed.

Lemma passes_may_precede a b : may_precede a b → passes (JNum (rank a)) b.
Proof.
  intros [Hle Hdup]. split.
  - rewrite js_gt_num. lia.
  - cbn. destruct (rank a =? rank b) eqn:E; [|done].
    apply Z.eqb_eq in E. rewrite <-(rank_inj _ _ E), (Hdup E). done.
Qed.

Lemma invoke_passes (h : heap) this s c :
  h !! this = Some s → passes (prev s) (cat c) →
  invoke this c h =
    (Return this,
     <[this := mkSelector (line s +:+ rendering c) (JNum (rank (cat c)))]> h).
Proof. intros Hs [H1 H2]. by rewrite (invoke_run _ _ _ _ Hs), H1, H2. Qed.

Lemma chain_passes cs : ∀ (h : heap) this s,
  h !! this = Some s →
  (∀ c, head cs = Some c → passes (prev s) (cat c)) →
  StronglySorted may_precede (cat <$> cs) →
  chain this cs h =
    (Return this,
     <[this := mkSelector (line s +:+ concat_all (rendering <$> cs))
                 (last_prev (prev s) cs)]> h).
Proof.
  induction cs as [|c cs IH]; intros h this s Hs Hhd Hsorted.
  - cbn. unfold concat_all, last_prev. cbn. rewrite append_empty_r.
    destruct s. by rewrite insert_id.
  - cbn [chain]. unfold mbind, state_exn_bind.
    rewrite (invoke_passes _ _ _ _ Hs) by by apply Hhd.
    apply StronglySorted_cons in Hsorted as [Hall Hsorted].
    erewrite IH; [|apply lookup_insert_eq| |done].
    + rewrite insert_insert_eq. cbn [line prev]. do 3 f_equal.
      * rewrite append_assoc. reflexivity.
      * unfold last_prev. rewrite last_cons. by destruct (last cs).
    + cbn [prev]. intros c' Hc'. apply passes_may_precede.
      destruct cs as [|c'' cs]; simplify_eq/=. by inversion Hall.
Qed.

(** The same calls issued one by one: none is rejected. *)
Lemma history_passes cs : ∀ (h : heap) this s,
  h !! this = Some s →
  (∀ c, head cs = Some c → passes (prev s) (cat c)) →
  StronglySorted may_precede (cat <$> cs) →
  (history this (OpAppend <$> cs) h).1 = (λ c, Accepted (cat c)) <$> cs.
Proof.
  induction cs as [|c cs IH]; intros h this s Hs Hhd Hsorted; [done|].
  cbn [fmap list_fmap history perform].
  rewrite (invoke_passes _ _ _ _ Hs) by by apply Hhd.
  apply StronglySorted_cons in Hsorted as [Hall Hsorted].
  specialize (IH (<[this := mkSelector (line s +:+ rendering c)
                              (JNum (rank (cat c)))]> h) this _
                 (lookup_insert_eq _ _ _)).
  destruct (history this (OpAppend <$> cs) _) as [es h2].
  cbn in *. f_equal. apply IH; [|done].
  intros c' Hc'. apply passes_may_precede.
  destruct cs as [|c'' cs]; simplify_eq/=. by inversion Hall.
Qed.

(** ** Chains of valid calls *)

(** C1. For every sequence of category-append calls made on one builder
    (the first through the facade, which creates the builder, the others
    chained on it) whose ranks never decrease and in which a rank repeats
    only when its category allows duplicates, every call succeeds, and
    [stringify()] returns the concatenation, in call order, of the literal
    renderings: [value], [#value], [.value], [[value]], [:value],
    [::value]. *)
Theorem valid_chain_stringify (h : heap) (c : call) (cs : list call) :
  valid_sequence (cat <$> c :: cs) →
  let this := fresh (dom h) in
  let out := concat_all (rendering <$> c :: cs) in
  let h' := <[this := mkSelector out (last_prev (JNum (-1)) (c :: cs))]> h in
  (s ← facade c; chain s cs) h = (Return this, h') ∧
  (history this (OpAppend <$> c :: cs) (MySuperBaseElementSelector.new h).2).1
    = (λ c, Accepted (cat c)) <$> c :: cs ∧
  (s ← facade c; s ← chain s cs; MySuperBaseElementSelector.stringify s) h
    = (Return out, h').
Proof.
  intros Hvalid this out h'.
  apply valid_sequence_sorted in Hvalid.
  assert (Hchain : (s ← facade c; chain s cs) h = (Return this, h')).
  { unfold mbind, state_exn_bind. rewrite facade_run.
    change (chain this (c :: cs)
              (<[this := mkSelector "" (JNum (-1))]> h) = (Return this, h')).
    erewrite chain_passes; [|apply lookup_insert_eq| |done].
    - by rewrite insert_insert_eq.
    - intros c' _. apply passes_first. }
  split; [done|]. split.
  { eapply history_passes; [apply lookup_insert_eq| |done].
    intros c' _. apply passes_first. }
  revert Hchain. unfold mbind, state_exn_bind.
  destruct (facade c h) as [[s|e] h1]; [|done].
  intros ->. unfold MySuperBaseElementSelector.stringify, read_line.
  subst h'. by rewrite lookup_insert_eq.
Qed.

Lemma valid_chain_stringify_witness :
  valid_sequence [CId; CClass; CClass] ∧
  (s ← cssSelectorBuilder.id "main";
   s ← MySuperBaseElementSelector.class s "container";
   s ← MySuperBaseElementSelector.class s "editable";
   MySuperBaseElementSelector.stringify s) ∅
  = (Return "#main.container.editable",
     {[ 1%positive := mkSelector "#main.container.editable" (JNum 3) ]}).
Proof.
  split; [apply (bool_decide_unpack _); vm_compute; exact I|].
  pose proof (valid_chain_stringify ∅ (Call CId "main")
    [Call CClass "container"; Call CClass "editable"]) as H.
  destruct H as (_ & _ & H); [apply (bool_decide_unpack _); vm_compute; exact I|].
  vm_compute in H. vm_compute. exact H.
Defined.

(** ** The facade's [combine] *)

Lemma combine_run (h : heap) this a b s sa sb k :
  h !! this = Some s → h !! a = Some sa → h !! b = Some sb →
  MySuperBaseElementSelector.combine this a k b h =
    if js_strict_eq (prev s) JUndefined then (Throw DuplicateError, h)
    else (Return this,
          <[this := mkSelector
                      (line s +:+ line sa +:+ " " +:+ k +:+ " " +:+ line sb)
                      JUndefined]> h).
Proof.
  intros Hs Ha Hb. unfold MySuperBaseElementSelector.combine.
  unfold mbind, state_exn_bind, read_line. rewrite Ha, Hb.
  rewrite (setSelector_run _ _ _ _ _ _ Hs), js_gt_undefined_r.
  by destruct (prev s).
Qed.

(** The facade's [combine] on two selectors of the store: a fresh selector
    is created and takes the joined text; nothing else changes. *)
Lemma facade_combine_run (h : heap) (a b : loc) (sa sb : Selector) (k : string) :
  h !! a = Some sa → h !! b = Some sb →
  cssSelectorBuilder.combine a k b h =
    (Return (fresh (dom h)),
     <[fresh (dom h) :=
         mkSelector (line sa +:+ " " +:+ k +:+ " " +:+ line sb) JUndefined]> h).
Proof.
  intros Ha Hb. pose proof (new_fresh h) as Hfresh.
  assert (a ≠ fresh (dom h)) as Hna by congruence.
  assert (b ≠ fresh (dom h)) as Hnb by congruence.
  unfold cssSelectorBuilder.combine, MySuperBaseElementSelector.new.
  unfold mbind at 1. unfold state_exn_bind.
  erewrite combine_run;
    [|apply lookup_insert_eq|by rewrite lookup_insert_ne..].
  cbn. by rewrite insert_insert_eq.
Qed.

(** C2. For every pair of selectors [a] and [b] and every combinator string
    [c], the facade's [combine(a, c, b)] does not raise: it returns a new
    selector, and [stringify()] of the result is
    [a.stringify() + " " + c + " " + b.stringify()], one literal space on
    each side of the combinator. *)
Theorem facade_combine_stringify (h : heap) (a b : loc) (sa sb : Selector)
    (c : string) :
  h !! a = Some sa → h !! b = Some sb →
  let this := fresh (dom h) in
  let out := line sa +:+ " " +:+ c +:+ " " +:+ line sb in
  let h' := <[this := mkSelector out JUndefined]> h in
  MySuperBaseElementSelector.stringify a h = (Return (line sa), h) ∧
  MySuperBaseElementSelector.stringify b h = (Return (line sb), h) ∧
  cssSelectorBuilder.combine a c b h = (Return this, h') ∧
  MySuperBaseElementSelector.stringify this h' = (Return out, h').
Proof.
  intros Ha Hb this out h'.
  unfold MySuperBaseElementSelector.stringify, read_line.
  rewrite Ha, Hb. split; [done|]. split; [done|]. split.
  - by apply facade_combine_run.
  - subst h'. by rewrite lookup_insert_eq.
Qed.

Lemma facade_combine_stringify_witness :
  let h : heap := {[ 1%positive := mkSelector "div#main" (JNum 2);
                     2%positive := mkSelector "table#data" (JNum 2) ]} in
  (s ← cssSelectorBuilder.combine 1%positive "+" 2%positive;
   MySuperBaseElementSelector.stringify s) h
  = (Return "div#main + table#data",
     <[3%positive := mkSelector "div#main + table#data" JUndefined]> h).
Proof.
  intros h.
  destruct (facade_combine_stringify h 1%positive 2%positive
              (mkSelector "div#main" (JNum 2))
              (mkSelector "table#data" (JNum 2)) "+")
    as (_ & _ & Hc & Hs); [reflexivity..|].
  unfold mbind, state_exn_bind. rewrite Hc.
  vm_compute in Hs. vm_compute. exact Hs.
Defined.

(** ** Rejected calls *)

Lemma OrderError_neq_DuplicateError : OrderError ≠ DuplicateError.
Proof. discriminate. Qed.

(** C3. On a builder whose last-appended rank is [p], a category-append
    call of rank [r < p] raises [OrderError] at that very call, the store
    left as it was; in particular [element] after [class] raises
    [OrderError]. *)
Theorem lower_rank_raises_OrderError :
  (∀ (h : heap) this s (p : Z) (c : call),
     h !! this = Some s → prev s = JNum p → rank (cat c) < p →
     invoke this c h = (Throw OrderError, h)) ∧
  (∀ (h : heap) (v w : string),
     (s ← cssSelectorBuilder.class v;
      MySuperBaseElementSelector.element s w) h
     = (Throw OrderError,
        <[fresh (dom h) := mkSelector ("." +:+ v) (JNum 3)]> h)).
Proof.
  assert (Hgen : ∀ (h : heap) this s (p : Z) (c : call),
     h !! this = Some s → prev s = JNum p → rank (cat c) < p →
     invoke this c h = (Throw OrderError, h)).
  { intros h this s p c Hs Hp Hlt.
    rewrite (invoke_run _ _ _ _ Hs), Hp, js_gt_num.
    by destruct (Z.ltb_spec (rank (cat c)) p); [|lia]. }
  split; [exact Hgen|].
  intros h v w.
  change (cssSelectorBuilder.class v) with (facade (Call CClass v)).
  unfold mbind, state_exn_bind. rewrite facade_run.
  erewrite invoke_passes; [|apply lookup_insert_eq|apply passes_first].
  rewrite insert_insert_eq.
  eapply (Hgen _ _ _ 3 (Call CElement w)); [apply lookup_insert_eq|done..].
Qed.

Lemma lower_rank_raises_OrderError_witness :
  let h : heap := {[ 1%positive := mkSelector ".a" (JNum 3) ]} in
  h !! 1%positive = Some (mkSelector ".a" (JNum 3)) ∧
  rank CElement < 3 ∧
  invoke 1%positive (Call CElement "div") h = (Throw OrderError, h).
Proof.
  intros h. split; [reflexivity|]. split; [reflexivity|].
  apply (proj1 lower_rank_raises_OrderError h 1%positive
           (mkSelector ".a" (JNum 3)) 3 (Call CElement "div"));
    reflexivity.
Defined.

(** C4. On a builder whose last-appended rank equals the rank of the new
    call, a category that forbids duplicates (element, id, pseudo-element)
    raises [DuplicateError] at that very call, the store left as it was; in
    particular [element] twice in a row raises [DuplicateError]. *)
Theorem equal_rank_raises_DuplicateError :
  (∀ (h : heap) this s (c : call),
     h !! this = Some s → prev s = JNum (rank (cat c)) →
     allows_duplicates (cat c) = false →
     invoke this c h = (Throw DuplicateError, h)) ∧
  (∀ c, allows_duplicates c = false ↔
        c = CElement ∨ c = CId ∨ c = CPseudoElement) ∧
  (∀ (h : heap) (v w : string),
     (s ← cssSelectorBuilder.element v;
      MySuperBaseElementSelector.element s w) h
     = (Throw DuplicateError,
        <[fresh (dom h) := mkSelector v (JNum 1)]> h)).
Proof.
  assert (Hgen : ∀ (h : heap) this s (c : call),
     h !! this = Some s → prev s = JNum (rank (cat c)) →
     allows_duplicates (cat c) = false →
     invoke this c h = (Throw DuplicateError, h)).
  { intros h this s c Hs Hp Hdup.
    rewrite (invoke_run _ _ _ _ Hs), Hp, js_gt_num, Hdup.
    rewrite Z.ltb_irrefl. cbn. by rewrite Z.eqb_refl. }
  split; [exact Hgen|]. split.
  { intros []; cbn;
      (split; [intros ?; try discriminate; auto
              |intros [?|[?|?]]; try discriminate; reflexivity]). }
  intros h v w.
  change (cssSelectorBuilder.element v) with (facade (Call CElement v)).
  unfold mbind, state_exn_bind. rewrite facade_run.
  erewrite invoke_passes; [|apply lookup_insert_eq|apply passes_first].
  rewrite insert_insert_eq.
  eapply (Hgen _ _ _ (Call CElement w)); [apply lookup_insert_eq|done..].
Qed.

Lemma equal_rank_raises_DuplicateError_witness :
  let h : heap := {[ 1%positive := mkSelector "div" (JNum 1) ]} in
  h !! 1%positive = Some (mkSelector "div" (JNum 1)) ∧
  allows_duplicates CElement = false ∧
  invoke 1%positive (Call CElement "span") h = (Throw DuplicateError, h).
Proof.
  intros h. split; [reflexivity|]. split; [reflexivity|].
  apply (proj1 equal_rank_raises_DuplicateError h 1%positive
           (mkSelector "div" (JNum 1)) (Call CElement "span"));
    reflexivity.
Defined.

(** ** [stringify] *)

(** C7. [stringify()] is a pure read: it returns the accumulated text and
    leaves the store as it was, two calls in a row return the same string,
    and a category-append call after it behaves as if [stringify] had not
    been called; when that call is accepted, the next [stringify()] returns
    the old text followed by the new fragment. *)
Theorem stringify_pure_read (h : heap) this s :
  h !! this = Some s →
  MySuperBaseElementSelector.stringify this h = (Return (line s), h) ∧
  (r1 ← MySuperBaseElementSelector.stringify this;
   r2 ← MySuperBaseElementSelector.stringify this;
   mret (r1, r2)) h = (Return (line s, line s), h) ∧
  (∀ c, (MySuperBaseElementSelector.stringify this;; invoke this c) h
        = invoke this c h) ∧
  (∀ c h',
     (MySuperBaseElementSelector.stringify this;; invoke this c) h
       = (Return this, h') →
     MySuperBaseElementSelector.stringify this h'
       = (Return (line s +:+ rendering c), h')).
Proof.
  intros Hs.
  assert (Hread : MySuperBaseElementSelector.stringify this h
                  = (Return (line s), h)).
  { unfold MySuperBaseElementSelector.stringify, read_line. by rewrite Hs. }
  split; [done|]. split; [|split].
  - unfold mbind, state_exn_bind, mret, state_exn_ret. by rewrite !Hread.
  - intros c. unfold mbind, state_exn_bind. by rewrite Hread.
  - intros c h'. unfold mbind, state_exn_bind. rewrite Hread.
    rewrite (invoke_run _ _ _ _ Hs).
    destruct (js_gt _ _); [done|].
    destruct (_ && _); [done|].
    intros [= <-].
    unfold MySuperBaseElementSelector.stringify, read_line.
    by rewrite lookup_insert_eq.
Qed.

Lemma stringify_pure_read_witness :
  let h : heap := {[ 1%positive := mkSelector "#main" (JNum 2) ]} in
  (r1 ← MySuperBaseElementSelector.stringify 1%positive;
   r2 ← MySuperBaseElementSelector.stringify 1%positive;
   mret (r1, r2)) h = (Return ("#main", "#main"), h).
Proof.
  intros h.
  destruct (stringify_pure_read h 1%positive (mkSelector "#main" (JNum 2)))
    as (_ & H & _); [reflexivity|].
  exact H.
Defined.

(** ** No validation of texts *)

Lemma rendering_verbatim c :
  rendering c = opening (cat c) +:+ text c +:+ closing (cat c).
Proof.
  destruct c as [[] v]; unfold rendering, opening, closing; cbn [cat text];
    rewrite ?append_empty_r; reflexivity.
Qed.

Lemma setSelector_throw_any_text (h : heap) this sel sel' n d e :
  (MySuperBaseElementSelector.setSelector this sel n d h).1 = Throw e →
  (MySuperBaseElementSelector.setSelector this sel' n d h).1 = Throw e.
Proof.
  destruct (h !! this) as [s|] eqn:Hs.
  - rewrite !(setSelector_run _ _ _ _ _ _ Hs).
    destruct (js_gt _ _); [done|]. by destruct (_ && _).
  - by rewrite !setSelector_dangling.
Qed.

(** C8. The combinator of [combine] is not checked against the CSS
    combinators, and no category-append call checks its text.  The facade's
    [combine] accepts every string and puts it unchanged between the two
    texts.  A category call that passes the two rank tests is accepted
    whatever its text is, and appends that text unchanged inside the marks
    of its category; so does every category entry of the facade.  The
    outcome of a call, returned or raised, is the same for every text, and
    whether [combine] raises does not depend on the combinator. *)
Theorem texts_are_embedded_verbatim :
  (∀ (h : heap) a b sa sb (k : string),
     h !! a = Some sa → h !! b = Some sb →
     ∃ h', cssSelectorBuilder.combine a k b h = (Return (fresh (dom h)), h') ∧
           MySuperBaseElementSelector.stringify (fresh (dom h)) h'
           = (Return (line sa +:+ " " +:+ k +:+ " " +:+ line sb), h')) ∧
  (∀ (h : heap) this a b (k k' : string) e,
     (MySuperBaseElementSelector.combine this a k b h).1 = Throw e →
     (MySuperBaseElementSelector.combine this a k' b h).1 = Throw e) ∧
  (∀ (h : heap) this (c : category) (v v' : string) e,
     (invoke this (Call c v) h).1 = Throw e →
     (invoke this (Call c v') h).1 = Throw e) ∧
  (∀ (h h' : heap) this s (c : category) (v : string),
     h !! this = Some s →
     invoke this (Call c v) h = (Return this, h') →
     MySuperBaseElementSelector.stringify this h'
     = (Return (line s +:+ opening c +:+ v +:+ closing c), h')) ∧
  (∀ (h : heap) this s (c : category) (v : string),
     h !! this = Some s → passes (prev s) c →
     let out := line s +:+ opening c +:+ v +:+ closing c in
     let h' := <[this := mkSelector out (JNum (rank c))]> h in
     invoke this (Call c v) h = (Return this, h') ∧
     MySuperBaseElementSelector.stringify this h' = (Return out, h')) ∧
  (∀ (h : heap) (c : category) (v : string),
     let this := fresh (dom h) in
     let out := opening c +:+ v +:+ closing c in
     let h' := <[this := mkSelector out (JNum (rank c))]> h in
     facade (Call c v) h = (Return this, h') ∧
     MySuperBaseElementSelector.stringify this h' = (Return out, h')) ∧
  (∀ (h : heap) this (c : category) (v v' : string),
     (invoke this (Call c v) h).1 = (invoke this (Call c v') h).1).
Proof.
  assert (Hpass : ∀ (h : heap) this s (c : category) (v : string),
     h !! this = Some s → passes (prev s) c →
     let out := line s +:+ opening c +:+ v +:+ closing c in
     let h' := <[this := mkSelector out (JNum (rank c))]> h in
     invoke this (Call c v) h = (Return this, h') ∧
     MySuperBaseElementSelector.stringify this h' = (Return out, h')).
  { intros h this s c v Hs Hp out h'. split.
    - rewrite (invoke_passes _ _ _ (Call c v) Hs Hp).
      subst h' out. by rewrite (rendering_verbatim (Call c v)).
    - subst h'. unfold MySuperBaseElementSelector.stringify, read_line.
      by rewrite lookup_insert_eq. }
  split; [|split; [|split; [|split; [|split; [|split]]]]].
  - intros h a b sa sb k Ha Hb.
    eexists. split; [by apply facade_combine_run|].
    unfold MySuperBaseElementSelector.stringify, read_line.
    by rewrite lookup_insert_eq.
  - intros h this a b k k' e.
    unfold MySuperBaseElementSelector.combine, mbind, state_exn_bind, read_line.
    destruct (h !! a); [|done]. destruct (h !! b); [|done].
    apply setSelector_throw_any_text.
  - intros h this c v v' e.
    destruct c; unfold invoke; cbn; apply setSelector_throw_any_text.
  - intros h h' this s c v Hs.
    rewrite (invoke_run _ _ _ _ Hs).
    destruct (js_gt _ _); [done|]. destruct (_ && _); [done|].
    intros [= <-].
    unfold MySuperBaseElementSelector.stringify, read_line.
    rewrite lookup_insert_eq. cbn [line].
    by rewrite (rendering_verbatim (Call c v)).
  - exact Hpass.
  - intros h c v this out h'. rewrite facade_run. fold this.
    destruct (Hpass (<[this := mkSelector "" (JNum (-1))]> h) this
                (mkSelector "" (JNum (-1))) c v (lookup_insert_eq _ _ _)
                (passes_first c)) as [Hinv Hstr].
    cbn [line] in Hinv, Hstr. rewrite insert_insert_eq in Hinv, Hstr.
    by split.
  - intros h this c v v'.
    destruct (h !! this) as [s|] eqn:Hs.
    + rewrite !(invoke_run _ _ _ _ Hs). cbn [cat].
      destruct (js_gt _ _); [done|]. by destruct (_ && _).
    + by rewrite !(invoke_dangling _ _ _ Hs).
Qed.

Lemma texts_are_embedded_verbatim_witness :
  let h : heap := {[ 1%positive := mkSelector "a" (JNum 1);
                     2%positive := mkSelector "b" (JNum 1) ]} in
  (∃ h', cssSelectorBuilder.combine 1%positive "not a combinator" 2%positive h
         = (Return 3%positive, h') ∧
         MySuperBaseElementSelector.stringify 3%positive h'
         = (Return "a not a combinator b", h')) ∧
  passes (prev (mkSelector "a" (JNum 1))) CClass ∧
  invoke 1%positive (Call CClass "9 ]not[ #a .name") h
  = (Return 1%positive,
     <[1%positive := mkSelector "a.9 ]not[ #a .name" (JNum 3)]> h) ∧
  invoke 1%positive (Call CAttr "") h
  = (Return 1%positive, <[1%positive := mkSelector "a[]" (JNum 4)]> h).
Proof.
  intros h.
  destruct texts_are_embedded_verbatim
    as (Hcombine & _ & _ & _ & Hpass & _ & _).
  split; [|split; [|split]].
  - destruct (Hcombine h 1%positive 2%positive
                (mkSelector "a" (JNum 1)) (mkSelector "b" (JNum 1))
                "not a combinator") as (h' & Hc & Hs); [reflexivity..|].
    exists h'. split; [exact Hc|exact Hs].
  - split; reflexivity.
  - apply (Hpass h 1%positive (mkSelector "a" (JNum 1)) CClass
             "9 ]not[ #a .name"); [reflexivity|split; reflexivity].
  - apply (Hpass h 1%positive (mkSelector "a" (JNum 1)) CAttr "");
      [reflexivity|split; reflexivity].
Defined.

(** ** Rejected calls change nothing *)

Lemma passes_legal_after (p : Z) (c : category) :
  passes (JNum p) c ↔ legal_after p c.
Proof.
  unfold passes, legal_after. rewrite js_gt_num. cbn.
  destruct (Z.ltb_spec (rank c) p), (Z.eqb_spec p (rank c)),
    (allows_duplicates c); cbn; split; try (intros [? ?]); try done;
    try lia; intros [?|[? ?]]; try done; lia.
Qed.

Lemma throw_numeric_prev (h h' : heap) this s (c : call) (e : exn) :
  h !! this = Some s → invoke this c h = (Throw e, h') →
  ∃ p, prev s = JNum p.
Proof.
  intros Hs. rewrite (invoke_run _ _ _ _ Hs).
  destruct (prev s) as [|b|p] eqn:Hp; [done| |by exists p].
  pose proof (rank_bounds (cat c)). unfold js_gt. cbn.
  by destruct (Z.ltb_spec (rank (cat c)) (if b then 1 else 0));
    [destruct b; lia|].
Qed.

(** C9. A category-append call that raises leaves the store as it was: the
    builder has the text and the [prev] it had before the call, it can be
    stringified, and a call that is legal after that [prev] is accepted
    afterwards.  The exception is [OrderError] or [DuplicateError]. *)
Theorem rejected_call_is_atomic (h h' : heap) this s (c : call) (e : exn) :
  h !! this = Some s →
  invoke this c h = (Throw e, h') →
  (e = OrderError ∨ e = DuplicateError) ∧
  h' = h ∧
  h' !! this = Some s ∧
  MySuperBaseElementSelector.stringify this h' = (Return (line s), h') ∧
  ∃ p, prev s = JNum p ∧
    ∀ c', legal_after p (cat c') →
      invoke this c' h' =
        (Return this,
         <[this := mkSelector (line s +:+ rendering c')
                     (JNum (rank (cat c')))]> h').
Proof.
  intros Hs Hthrow.
  destruct (throw_numeric_prev _ _ _ _ _ _ Hs Hthrow) as [p Hp].
  assert (h' = h) as ->.
  { revert Hthrow. rewrite (invoke_run _ _ _ _ Hs).
    destruct (js_gt _ _); [by intros [= _ <-]|].
    destruct (_ && _); [by intros [= _ <-]|done]. }
  split.
  { revert Hthrow. rewrite (invoke_run _ _ _ _ Hs).
    destruct (js_gt _ _); [intros [= <-]; by left|].
    destruct (_ && _); [intros [= <-]; by right|done]. }
  split; [done|]. split; [done|]. split.
  - unfold MySuperBaseElementSelector.stringify, read_line. by rewrite Hs.
  - exists p. split; [done|]. intros c' Hlegal.
    apply invoke_passes; [done|]. rewrite Hp. by apply passes_legal_after.
Qed.

Lemma rejected_call_is_atomic_witness :
  let h : heap := {[ 1%positive := mkSelector ".a" (JNum 3) ]} in
  invoke 1%positive (Call CElement "div") h = (Throw OrderError, h) ∧
  MySuperBaseElementSelector.stringify 1%positive h = (Return ".a", h) ∧
  invoke 1%positive (Call CAttr "x") h
  = (Return 1%positive, <[1%positive := mkSelector ".a[x]" (JNum 4)]> h).
Proof.
  intros h.
  assert (Hthrow : invoke 1%positive (Call CElement "div") h
                   = (Throw OrderError, h)) by reflexivity.
  destruct (rejected_call_is_atomic h h 1%positive (mkSelector ".a" (JNum 3))
              (Call CElement "div") OrderError)
    as (_ & _ & _ & Hs & p & Hp & Hnext); [reflexivity|exact Hthrow|].
  split; [exact Hthrow|]. split; [exact Hs|].
  apply (Hnext (Call CAttr "x")). left. cbn in Hp. injection Hp as <-.
  reflexivity.
Defined.

(** ** The order of accepted calls *)

Lemma may_precede_trans a b c :
  may_precede a b → may_precede b c → may_precede a c.
Proof.
  intros [Hab Hdab] [Hbc Hdbc]. split; [lia|].
  intros Hac. apply Hdab. lia.
Qed.

Lemma since_combine_app acc es1 es2 :
  since_combine acc (es1 ++ es2) = since_combine (since_combine acc es1) es2.
Proof.
  revert acc. induction es1 as [|[c|] es1 IH]; intros acc; cbn; auto.
Qed.

Lemma since_combine_accepted acc es :
  Combined ∉ es → since_combine acc es = acc ++ accepted es.
Proof.
  revert acc. induction es as [|[c|] es IH]; intros acc Hno; cbn.
  - by rewrite app_nil_r.
  - rewrite IH, <-app_assoc; [done|]. set_solver.
  - set_solver.
Qed.

Lemma tracks_snoc seg s c :
  tracks seg s → passes (prev s) c →
  StronglySorted may_precede (seg ++ [c]).
Proof.
  intros [Hsorted Hlast] Hadm.
  apply StronglySorted_app. split; [|split; [done|repeat constructor]].
  intros x1 x2 Hx1 ->%list_elem_of_singleton.
  destruct (last seg) as [c0|] eqn:Hc0.
  - apply last_Some in Hc0 as [seg0 ->]. rewrite Hlast in Hadm.
    assert (may_precede c0 c) as Hc0c.
    { destruct Hadm as [Hgt Heq]. rewrite js_gt_num in Hgt. cbn in Heq.
      split; [lia|]. intros E. rewrite E, Z.eqb_refl in Heq.
      apply rank_inj in E as ->. by destruct (allows_duplicates c). }
    apply elem_of_app in Hx1 as [Hx1| ->%list_elem_of_singleton]; [|done].
    eapply may_precede_trans; [|exact Hc0c].
    eapply StronglySorted_app_1_elem_of; [exact Hsorted|done|].
    by apply list_elem_of_singleton.
  - apply last_None in Hc0 as ->. by apply elem_of_nil in Hx1.
Qed.

Lemma invoke_return_passes (h h' : heap) this s c l :
  h !! this = Some s → invoke this c h = (Return l, h') →
  passes (prev s) (cat c) ∧
  h' = <[this := mkSelector (line s +:+ rendering c) (JNum (rank (cat c)))]> h.
Proof.
  intros Hs. rewrite (invoke_run _ _ _ _ Hs). unfold passes.
  destruct (js_gt _ _); [done|]. destruct (_ && _); [done|].
  by intros [= _ <-].
Qed.

Lemma invoke_throw_same (h h' : heap) this c e :
  invoke this c h = (Throw e, h') → h' = h.
Proof.
  destruct (h !! this) as [s|] eqn:Hs.
  - rewrite (invoke_run _ _ _ _ Hs).
    destruct (js_gt _ _); [by intros [= _ <-]|].
    destruct (_ && _); [by intros [= _ <-]|done].
  - rewrite (invoke_dangling _ _ _ Hs). by intros [= _ <-].
Qed.

Lemma combine_cases (h : heap) this a k b s :
  h !! this = Some s →
  (∃ e, MySuperBaseElementSelector.combine this a k b h = (Throw e, h)) ∨
  (∃ t, prev s ≠ JUndefined ∧
        MySuperBaseElementSelector.combine this a k b h
        = (Return this, <[this := mkSelector t JUndefined]> h)).
Proof.
  intros Hs.
  destruct (h !! a) as [sa|] eqn:Ha; [destruct (h !! b) as [sb|] eqn:Hb|].
  - rewrite (combine_run _ _ _ _ _ _ _ _ Hs Ha Hb).
    destruct (prev s) eqn:Hp; cbn; eauto.
  - left. exists TypeError.
    unfold MySuperBaseElementSelector.combine, mbind, state_exn_bind, read_line.
    by rewrite Ha, Hb.
  - left. exists TypeError.
    unfold MySuperBaseElementSelector.combine, mbind, state_exn_bind, read_line.
    by rewrite Ha.
Qed.

Lemma perform_tracks (h : heap) this s o seg :
  h !! this = Some s → tracks seg s →
  ∃ s', (perform this o h).2 !! this = Some s' ∧
        tracks (since_combine seg (perform this o h).1) s'.
Proof.
  intros Hs Htr. destruct o as [c|a k b|]; cbn [perform].
  - destruct (invoke this c h) as [[l|e] h'] eqn:Hinv.
    + apply (invoke_return_passes _ _ _ _ _ _ Hs) in Hinv as [Hadm ->].
      eexists. split; [apply lookup_insert_eq|]. cbn.
      split; [by eapply tracks_snoc|]. by rewrite last_snoc.
    + apply invoke_throw_same in Hinv as ->. by exists s.
  - destruct (combine_cases h this a k b s Hs) as [[e ->]|(t & _ & ->)].
    + by exists s.
    + eexists. split; [apply lookup_insert_eq|]. cbn.
      split; [constructor|by right].
  - unfold MySuperBaseElementSelector.stringify, read_line. rewrite Hs.
    by exists s.
Qed.

Lemma history_tracks ops : ∀ (h : heap) this s seg,
  h !! this = Some s → tracks seg s →
  ∃ s', (history this ops h).2 !! this = Some s' ∧
        tracks (since_combine seg (history this ops h).1) s'.
Proof.
  induction ops as [|o ops IH]; intros h this s seg Hs Htr.
  - by exists s.
  - cbn [history].
    destruct (perform_tracks h this s o seg Hs Htr) as (s1 & Hs1 & Htr1).
    destruct (perform this o h) as [es h1].
    destruct (IH h1 this s1 _ Hs1 Htr1) as (s2 & Hs2 & Htr2).
    destruct (history this ops h1) as [es' h2].
    exists s2. split; [done|]. cbn in *. by rewrite since_combine_app.
Qed.

Lemma history_combined ops : ∀ (h : heap) this,
  Combined ∈ (history this ops h).1 → ∃ a k b, OpCombine a k b ∈ ops.
Proof.
  induction ops as [|o ops IH]; intros h this; cbn [history].
  - cbn. by intros ?%elem_of_nil.
  - destruct (perform this o h) as [es h1] eqn:Hp.
    destruct (history this ops h1) as [es' h2] eqn:Hh. cbn.
    intros [Hin|Hin]%elem_of_app.
    + destruct o as [c|a k b|].
      * cbn in Hp. destruct (invoke this c h) as [[l|e] h']; simplify_eq.
        -- by apply list_elem_of_singleton in Hin.
        -- by apply elem_of_nil in Hin.
      * exists a, k, b. left.
      * cbn in Hp. simplify_eq. by apply elem_of_nil in Hin.
    + destruct (IH h1 this) as (a & k & b & Hop); [by rewrite Hh|].
      exists a, k, b. by right.
Qed.

Lemma accepted_app es1 es2 : accepted (es1 ++ es2) = accepted es1 ++ accepted es2.
Proof. induction es1 as [|[c|] es1 IH]; cbn; by rewrite ?IH. Qed.

Lemma history_no_combine (h : heap) this ops :
  (∀ a k b, OpCombine a k b ∉ ops) → Combined ∉ (history this ops h).1.
Proof.
  intros Hno Hin. apply history_combined in Hin as (a & k & b & Hop).
  by eapply Hno.
Qed.

(** C5, as the code has it.  On every selector, from its creation on and
    whatever is called on it (category methods, [combine], [stringify],
    failed calls included), the categories accepted since the last accepted
    [combine] have ranks that never decrease, and a rank repeats only for a
    category that allows duplicates.  When [combine] is not called on the
    selector, or only as its first operation as the facade does, this is
    the whole sequence of accepted calls. *)
Theorem accepted_valid_since_combine (h : heap) (ops : list op) :
  let this := fresh (dom h) in
  let es := (history this ops (MySuperBaseElementSelector.new h).2).1 in
  valid_sequence (since_combine [] es) ∧
  (∀ ops', (ops = ops' ∨ ∃ a k b, ops = OpCombine a k b :: ops') →
           (∀ a k b, OpCombine a k b ∉ ops') →
           valid_sequence (accepted es)).
Proof.
  intros this es.
  assert (Hvalid : valid_sequence (since_combine [] es)).
  { apply valid_sequence_sorted.
    destruct (history_tracks ops (MySuperBaseElementSelector.new h).2 this
                (mkSelector "" (JNum (-1))) [])
      as (s' & _ & Hsorted & _).
    - apply lookup_insert_eq.
    - split; [constructor|by left].
    - exact Hsorted. }
  split; [exact Hvalid|].
  intros ops' Hops Hno.
  assert (since_combine [] es = accepted es) as <-; [|exact Hvalid].
  subst es. destruct Hops as [->|(a & k & b & ->)].
  - by rewrite since_combine_accepted by by apply history_no_combine.
  - cbn [history].
    set (h0 := (MySuperBaseElementSelector.new h).2).
    destruct (perform this (OpCombine a k b) h0) as [es1 h1] eqn:Hp.
    assert (es1 = [] ∨ es1 = [Combined]) as Hes1.
    { cbn [perform] in Hp.
      destruct (MySuperBaseElementSelector.combine this a k b h0)
        as [[l|e] h']; simplify_eq; auto. }
    pose proof (history_no_combine h1 this ops' Hno) as Hno'.
    destruct (history this ops' h1) as [es' h2]. cbn [fst] in *.
    rewrite since_combine_app, accepted_app.
    destruct Hes1 as [-> | ->]; cbn; by rewrite since_combine_accepted.
Qed.

Lemma accepted_valid_since_combine_witness :
  let h : heap := {[ 1%positive := mkSelector "x" (JNum 1);
                     2%positive := mkSelector "y" (JNum 1) ]} in
  let ops := [OpCombine 1%positive ">" 2%positive;
              OpAppend (Call CPseudoClass "hover");
              OpAppend (Call CClass "late");
              OpAppend (Call CPseudoClass "focus");
              OpStringify] in
  valid_sequence
    (accepted (history 3%positive ops (MySuperBaseElementSelector.new h).2).1).
Proof.
  intros h ops.
  apply (proj2 (accepted_valid_since_combine h ops)
           [OpAppend (Call CPseudoClass "hover");
            OpAppend (Call CClass "late");
            OpAppend (Call CPseudoClass "focus");
            OpStringify]).
  - right. by exists 1%positive, ">", 2%positive.
  - intros a k b Hin. vm_compute in Hin.
    repeat (apply elem_of_cons in Hin as [Hin|Hin]; [discriminate|]).
    by apply elem_of_nil in Hin.
Defined.

(** C5 as the claim states it fails: [combine] is a method of every
    selector, and after [class('a')], [combine(x, '+', y)] and
    [element('div')] on one selector the accepted ranks are 3, 1. *)
Lemma accepted_ranks_decrease_after_combine :
  let h : heap := {[ 1%positive := mkSelector "x" (JNum 1);
                     2%positive := mkSelector "y" (JNum 1) ]} in
  let ops := [OpAppend (Call CClass "a");
              OpCombine 1%positive "+" 2%positive;
              OpAppend (Call CElement "div")] in
  let run := history 3%positive ops (MySuperBaseElementSelector.new h).2 in
  (MySuperBaseElementSelector.new h).1 = Return 3%positive ∧
  accepted run.1 = [CClass; CElement] ∧
  run.2 !! 3%positive = Some (mkSelector ".ax + ydiv" (JNum 1)) ∧
  ¬ nondecreasing (accepted run.1) ∧
  ¬ valid_sequence (accepted run.1).
Proof.
  intros h ops run.
  assert (Hacc : accepted run.1 = [CClass; CElement]) by (vm_compute; reflexivity).
  assert (Hdec : ¬ nondecreasing (accepted run.1)).
  { rewrite Hacc. intros H.
    specialize (H 0%nat 1%nat CClass CElement). cbn in H.
    assert (3 ≤ 1) by (apply H; [lia|reflexivity..]). lia. }
  split; [vm_compute; reflexivity|]. split; [exact Hacc|].
  split; [vm_compute; reflexivity|]. split; [exact Hdec|].
  intros [H _]. by apply Hdec.
Qed.

(** ** [combine] on a selector *)

(** [combine] goes through [checkOnErrors] like every other method.  With a
    numeric [prev], so on every fresh selector and after every accepted
    category call, both tests are false. *)
Lemma combine_accepted_numeric_prev (h : heap) this a b s sa sb k (p : Z) :
  h !! this = Some s → h !! a = Some sa → h !! b = Some sb →
  prev s = JNum p →
  MySuperBaseElementSelector.combine this a k b h =
    (Return this,
     <[this := mkSelector (line s +:+ line sa +:+ " " +:+ k +:+ " " +:+ line sb)
                 JUndefined]> h).
Proof.
  intros Hs Ha Hb Hp.
  by rewrite (combine_run _ _ _ _ _ _ _ _ Hs Ha Hb), Hp.
Qed.

(** After an accepted [combine] the selector's [prev] is [undefined]: the
    next category call is accepted whatever its rank, and a chain is
    checked against the ranks appended after the [combine] only. *)
Lemma chain_after_combine (h : heap) this s cs :
  h !! this = Some s → prev s = JUndefined →
  valid_sequence (cat <$> cs) →
  chain this cs h =
    (Return this,
     <[this := mkSelector (line s +:+ concat_all (rendering <$> cs))
                 (last_prev JUndefined cs)]> h).
Proof.
  intros Hs Hp Hvalid. rewrite <-Hp.
  apply chain_passes; [done| |by apply valid_sequence_sorted].
  intros c _. rewrite Hp. apply passes_undefined.
Qed.

(** With [prev] already [undefined], the second test of [checkOnErrors]
    compares [undefined === undefined] and [!canDuplicate] is true. *)
Lemma combine_twice_raises (h : heap) this a b s sa sb k :
  h !! this = Some s → h !! a = Some sa → h !! b = Some sb →
  prev s = JUndefined →
  MySuperBaseElementSelector.combine this a k b h = (Throw DuplicateError, h).
Proof.
  intros Hs Ha Hb Hp.
  by rewrite (combine_run _ _ _ _ _ _ _ _ Hs Ha Hb), Hp.
Qed.

(** C6 at [cssSelectorBuilder.combine(a, '+', b).combine(a, '~', b)]: the
    second [combine] is rejected by the duplicate test of [checkOnErrors]. *)
Theorem combine_on_combined_selector_raises :
  let h : heap := {[ 1%positive := mkSelector "a" (JNum 1);
                     2%positive := mkSelector "b" (JNum 1) ]} in
  (s ← cssSelectorBuilder.combine 1%positive "+" 2%positive;
   MySuperBaseElementSelector.combine s 1%positive "~" 2%positive) h
  = (Throw DuplicateError,
     <[3%positive := mkSelector "a + b" JUndefined]> h).
Proof. vm_compute. reflexivity. Qed.

(** * Properties of [fromJSON] *)

Section fromJSON_properties.
Import Objects.

Variable parse_text : string → state_exn store value.

Lemma fromJSON_run (proto : value) (json : string) (st : store) :
  fromJSON parse_text proto json st =
    if negb (to_boolean (VStr json)) && negb (to_boolean proto)
    then (Return VNull, st)
    else match JSON_parse parse_text json st with
         | (Throw e, st1) => (Throw e, st1)
         | (Return obj, st1) =>
             match Object_setPrototypeOf obj proto st1 with
             | (Throw e, st2) => (Throw e, st2)
             | (Return _, st2) => (Return obj, st2)
             end
         end.
Proof.
  unfold fromJSON. destruct (_ && _); [reflexivity|].
  unfold mbind, state_exn_bind, mret, state_exn_ret.
  destruct (JSON_parse parse_text json st) as [[obj|e] st1]; [|reflexivity].
  by destruct (Object_setPrototypeOf obj proto st1) as [[?|?] ?].
Qed.






End fromJSON_properties.



(** * The examples of the source's documentation, run on the model *)

Example documented_id_class_class :
  (s ← cssSelectorBuilder.id "main";
   s ← MySuperBaseElementSelector.class s "container";
   s ← MySuperBaseElementSelector.class s "editable";
   MySuperBaseElementSelector.stringify s) ∅
  = (Return "#main.container.editable",
     {[ 1%positive := mkSelector "#main.container.editable" (JNum 3) ]}).
Proof. vm_compute. reflexivity. Qed.

Example documented_element_attr_pseudoClass :
  ((s ← cssSelectorBuilder.element "a";
    s ← MySuperBaseElementSelector.attr s ("href$=" +:+ dq +:+ ".png" +:+ dq);
    s ← MySuperBaseElementSelector.pseudoClass s "focus";
    MySuperBaseElementSelector.stringify s) ∅).1
  = Return ("a[href$=" +:+ dq +:+ ".png" +:+ dq +:+ "]:focus").
Proof. vm_compute. reflexivity. Qed.

Example documented_nested_combine :
  ((d ← cssSelectorBuilder.element "div";
    d ← MySuperBaseElementSelector.id d "main";
    d ← MySuperBaseElementSelector.class d "container";
    d ← MySuperBaseElementSelector.class d "draggable";
    t ← cssSelectorBuilder.element "table";
    t ← MySuperBaseElementSelector.id t "data";
    r ← cssSelectorBuilder.element "tr";
    r ← MySuperBaseElementSelector.pseudoClass r "nth-of-type(even)";
    c ← cssSelectorBuilder.element "td";
    c ← MySuperBaseElementSelector.pseudoClass c "nth-of-type(even)";
    rc ← cssSelectorBuilder.combine r " " c;
    trc ← cssSelectorBuilder.combine t "~" rc;
    all ← cssSelectorBuilder.combine d "+" trc;
    MySuperBaseElementSelector.stringify all) ∅).1
  = Return "div#main.container.draggable + table#data ~ tr:nth-of-type(even)   td:nth-of-type(even)".
Proof. vm_compute. reflexivity. Qed.

(** * Further properties of the builder *)

(** ** What a call depends on and what it touches *)

Lemma invoke_return_this (h h' : heap) this c l :
  invoke this c h = (Return l, h') → l = this.
Proof.
  destruct (h !! this) as [s|] eqn:Hs.
  - rewrite (invoke_run _ _ _ _ Hs).
    destruct (js_gt _ _); [done|]. destruct (_ && _); [done|].
    by intros [= <- _].
  - by rewrite (invoke_dangling _ _ _ Hs).
Qed.

(** A category call reads the receiver only and writes the receiver only:
    in every store that agrees on the receiver it has the same outcome and
    makes the same update. *)
Lemma invoke_local (h : heap) this c :
  ∃ (r : outcome loc) (upd : option Selector),
    ∀ h' : heap, h' !! this = h !! this →
      invoke this c h' =
        (r, match upd with Some s' => <[this := s']> h' | None => h' end).
Proof.
  destruct (h !! this) as [s|] eqn:Hs.
  - destruct (js_gt (prev s) (JNum (rank (cat c)))) eqn:Hgt;
      [|destruct (js_strict_eq (prev s) (JNum (rank (cat c)))
                  && negb (allows_duplicates (cat c))) eqn:Heq].
    + exists (Throw OrderError), None. intros h' Hh'.
      by rewrite (invoke_run _ _ _ _ Hh'), Hgt.
    + exists (Throw DuplicateError), None. intros h' Hh'.
      by rewrite (invoke_run _ _ _ _ Hh'), Hgt, Heq.
    + exists (Return this),
        (Some (mkSelector (line s +:+ rendering c) (JNum (rank (cat c))))).
      intros h' Hh'. by rewrite (invoke_run _ _ _ _ Hh'), Hgt, Heq.
  - exists (Throw TypeError), None. intros h' Hh'.
    by rewrite (invoke_dangling _ _ _ Hh').
Qed.

Lemma combine_frame (h : heap) this a k b o :
  o ≠ this →
  (MySuperBaseElementSelector.combine this a k b h).2 !! o = h !! o.
Proof.
  intros Ho.
  unfold MySuperBaseElementSelector.combine, mbind, state_exn_bind, read_line.
  destruct (h !! a) as [sa|]; [|done]. destruct (h !! b) as [sb|]; [|done].
  destruct (h !! this) as [s|] eqn:Hs.
  - rewrite (setSelector_run _ _ _ _ _ _ Hs).
    destruct (js_gt _ _); [done|]. destruct (_ && _); [done|].
    cbn. by rewrite lookup_insert_ne.
  - by rewrite (setSelector_dangling _ _ _ _ _ Hs).
Qed.

(** X1. Every category entry point of the facade succeeds, whatever the
    category and the text: it returns a selector that was not in the store
    before, whose text is the rendering of the fragment and whose [prev] is
    the rank of the category, and no selector that existed before is
    changed. *)
Theorem facade_entry_creates_fresh_selector (h : heap) (c : call) :
  let this := fresh (dom h) in
  h !! this = None ∧
  facade c h =
    (Return this,
     <[this := mkSelector (rendering c) (JNum (rank (cat c)))]> h) ∧
  (∀ o s, h !! o = Some s → (facade c h).2 !! o = Some s).
Proof.
  intros this. pose proof (new_fresh h) as Hfresh. fold this in Hfresh.
  assert (Hrun : facade c h =
    (Return this,
     <[this := mkSelector (rendering c) (JNum (rank (cat c)))]> h)).
  { rewrite facade_run. fold this.
    erewrite invoke_passes; [|apply lookup_insert_eq|apply passes_first].
    by rewrite insert_insert_eq. }
  split; [done|]. split; [done|].
  intros o s Ho. rewrite Hrun. cbn.
  rewrite lookup_insert_ne; [done|congruence].
Qed.

(** ** Chains: exactly the valid sequences are accepted *)

Lemma chain_return_sorted cs : ∀ (h h' : heap) this s seg l,
  h !! this = Some s → tracks seg s →
  chain this cs h = (Return l, h') →
  StronglySorted may_precede (seg ++ (cat <$> cs)).
Proof.
  induction cs as [|c cs IH]; intros h h' this s seg l Hs Htr.
  - intros _. rewrite app_nil_r. by destruct Htr.
  - cbn [chain]. unfold mbind, state_exn_bind.
    destruct (invoke this c h) as [[l1|e] h1] eqn:Hinv; [|done].
    pose proof (invoke_return_this _ _ _ _ _ Hinv) as ->.
    apply (invoke_return_passes _ _ _ _ _ _ Hs) in Hinv as [Hpass ->].
    intros Hchain.
    change (seg ++ (cat <$> c :: cs)) with (seg ++ cat c :: (cat <$> cs)).
    rewrite cons_middle, app_assoc.
    eapply IH; [apply lookup_insert_eq| |exact Hchain].
    split; [by eapply tracks_snoc|]. by rewrite last_snoc.
Qed.

(** X2. A chain of category calls started through the facade returns
    exactly when its categories form a valid sequence: ranks never go down
    and a rank repeats only for a category that allows duplicates. *)
Theorem chain_returns_iff_valid (h : heap) (c : call) (cs : list call) :
  (∃ l h', (s ← facade c; chain s cs) h = (Return l, h')) ↔
  valid_sequence (cat <$> c :: cs).
Proof.
  assert (Hstart : (s ← facade c; chain s cs) h =
            chain (fresh (dom h)) (c :: cs)
              (<[fresh (dom h) := mkSelector "" (JNum (-1))]> h)).
  { unfold mbind at 1. unfold state_exn_bind. by rewrite facade_run. }
  rewrite Hstart, valid_sequence_sorted. split.
  - intros (l & h' & Hchain).
    change (StronglySorted may_precede ([] ++ (cat <$> c :: cs))).
    eapply chain_return_sorted; [apply lookup_insert_eq| |exact Hchain].
    split; [constructor|by left].
  - intros Hsorted. do 2 eexists.
    apply chain_passes; [apply lookup_insert_eq| |done].
    intros c' _. apply passes_first.
Qed.

Lemma chain_app cs1 cs2 : ∀ (h : heap) this,
  chain this (cs1 ++ cs2) h = (s ← chain this cs1; chain s cs2) h.
Proof.
  induction cs1 as [|c cs1 IH]; intros h this; [done|].
  cbn [app chain]. unfold mbind, state_exn_bind in *.
  destruct (invoke this c h) as [[l|e] h1]; [|done]. apply IH.
Qed.

(** X3. A chain is not atomic as a whole: when the calls before a rejected
    one form a valid sequence, the chain raises at the rejected call
    ([OrderError] for a lower rank, [DuplicateError] otherwise), the calls
    after it are not made, and the selector keeps the text and the rank of
    the accepted calls. *)
Theorem chain_stops_at_first_rejected (h : heap) (c0 : call)
    (cs1 : list call) (c : call) (cs2 : list call) (p : Z) :
  valid_sequence (cat <$> c0 :: cs1) →
  last_prev (JNum (-1)) (c0 :: cs1) = JNum p →
  ¬ legal_after p (cat c) →
  (s ← facade c0; chain s (cs1 ++ c :: cs2)) h =
    (Throw (if rank (cat c) <? p then OrderError else DuplicateError),
     <[fresh (dom h) :=
         mkSelector (concat_all (rendering <$> c0 :: cs1)) (JNum p)]> h).
Proof.
  intros Hvalid Hlast Hillegal.
  apply valid_sequence_sorted in Hvalid.
  unfold mbind at 1. unfold state_exn_bind. rewrite facade_run.
  set (this := fresh (dom h)).
  match goal with
  | |- _ = ?rhs =>
      change (chain this ((c0 :: cs1) ++ c :: cs2)
                (<[this := mkSelector "" (JNum (-1))]> h) = rhs)
  end.
  rewrite chain_app. unfold mbind, state_exn_bind.
  erewrite chain_passes;
    [|apply lookup_insert_eq|intros c' _; apply passes_first|done].
  rewrite insert_insert_eq. cbn [line prev]. rewrite Hlast.
  cbn [chain]. unfold mbind, state_exn_bind.
  erewrite invoke_run; [|apply lookup_insert_eq]. cbn [prev].
  rewrite js_gt_num.
  destruct (Z.ltb_spec (rank (cat c)) p) as [Hlt|Hge]; [done|].
  destruct (js_strict_eq (JNum p) (JNum (rank (cat c)))
            && negb (allows_duplicates (cat c))) eqn:Heq; [done|].
  exfalso. apply Hillegal. apply passes_legal_after. split; [|done].
  rewrite js_gt_num. by apply Z.ltb_ge.
Qed.

Lemma chain_stops_at_first_rejected_witness :
  (s ← cssSelectorBuilder.element "div";
   s ← MySuperBaseElementSelector.id s "x";
   s ← MySuperBaseElementSelector.element s "y";
   MySuperBaseElementSelector.class s "z") ∅
  = (Throw OrderError, {[ 1%positive := mkSelector "div#x" (JNum 2) ]}).
Proof.
  assert (Hvalid : valid_sequence (cat <$> [Call CElement "div"; Call CId "x"])).
  { apply (bool_decide_unpack _). vm_compute. exact I. }
  assert (Hillegal : ¬ legal_after 2 (cat (Call CElement "y"))).
  { intros [Hlt|[Heq _]]; discriminate. }
  pose proof (chain_stops_at_first_rejected ∅ (Call CElement "div")
                [Call CId "x"] (Call CElement "y") [Call CClass "z"] 2
                Hvalid eq_refl Hillegal) as H.
  vm_compute in H. vm_compute. exact H.
Defined.

(** ** Selectors do not interfere *)

Lemma invoke_store (h : heap) this c :
  (invoke this c h).2 = h ∨
  ∃ s s', h !! this = Some s ∧ (invoke this c h).2 = <[this := s']> h.
Proof.
  destruct (h !! this) as [s|] eqn:Hs.
  - rewrite (invoke_run _ _ _ _ Hs).
    destruct (js_gt _ _); [by left|]. destruct (_ && _); [by left|].
    right. by do 2 eexists.
  - left. by rewrite (invoke_dangling _ _ _ Hs).
Qed.

Lemma combine_store (h : heap) this a k b :
  (MySuperBaseElementSelector.combine this a k b h).2 = h ∨
  ∃ s s', h !! this = Some s ∧
    (MySuperBaseElementSelector.combine this a k b h).2 = <[this := s']> h.
Proof.
  unfold MySuperBaseElementSelector.combine, mbind, state_exn_bind, read_line.
  destruct (h !! a) as [sa|]; [|by left]. destruct (h !! b) as [sb|]; [|by left].
  destruct (h !! this) as [s|] eqn:Hs.
  - rewrite (setSelector_run _ _ _ _ _ _ Hs).
    destruct (js_gt _ _); [by left|]. destruct (_ && _); [by left|].
    right. by do 2 eexists.
  - left. by rewrite (setSelector_dangling _ _ _ _ _ Hs).
Qed.

Lemma update_keeps_dom (h h1 : heap) this :
  (h1 = h ∨ ∃ (s s' : Selector), h !! this = Some s ∧ h1 = <[this := s']> h) →
  dom h1 = dom h.
Proof.
  intros [->|(s & s' & Hs & ->)]; [done|].
  apply dom_insert_lookup_L. by rewrite Hs.
Qed.

(** X4. A method called on one selector, a category method or [combine],
    accepted or rejected, leaves every other selector of the store as it
    was and neither creates nor removes a selector; the facade's [combine]
    leaves every selector that existed before, its two arguments among
    them, as it was. *)
Theorem calls_change_only_the_receiver (h : heap) (this o : loc) :
  o ≠ this →
  (∀ c, (invoke this c h).2 !! o = h !! o ∧ dom (invoke this c h).2 = dom h) ∧
  (∀ a k b,
     (MySuperBaseElementSelector.combine this a k b h).2 !! o = h !! o ∧
     dom (MySuperBaseElementSelector.combine this a k b h).2 = dom h) ∧
  (∀ a k b s, h !! o = Some s →
     (cssSelectorBuilder.combine a k b h).2 !! o = Some s).
Proof.
  intros Hne. split; [|split].
  - intros c. split; [|apply (update_keeps_dom _ _ this), invoke_store].
    destruct (invoke_store h this c) as [->|(s & s' & _ & ->)]; [done|].
    by rewrite lookup_insert_ne.
  - intros a k b. split; [by apply combine_frame|].
    apply (update_keeps_dom _ _ this), combine_store.
  - intros a k b s Ho.
    unfold cssSelectorBuilder.combine, MySuperBaseElementSelector.new.
    unfold mbind at 1. unfold state_exn_bind.
    assert (o ≠ fresh (dom h)) as Hfresh.
    { intros ->. by rewrite new_fresh in Ho. }
    rewrite combine_frame by done. by rewrite lookup_insert_ne.
Qed.

Lemma calls_change_only_the_receiver_witness :
  let h : heap := {[ 1%positive := mkSelector "div" (JNum 1);
                     2%positive := mkSelector ".a" (JNum 3) ]} in
  (invoke 1%positive (Call CId "main") h).2 !! 2%positive
    = Some (mkSelector ".a" (JNum 3)) ∧
  (MySuperBaseElementSelector.combine 1%positive 2%positive "+" 2%positive h).2
    !! 2%positive = Some (mkSelector ".a" (JNum 3)).
Proof.
  intros h.
  assert (Hne : 2%positive ≠ 1%positive) by discriminate.
  destruct (calls_change_only_the_receiver h 1%positive 2%positive Hne)
    as (Hcall & Hcombine & _).
  split.
  - etrans; [apply (proj1 (Hcall (Call CId "main")))|reflexivity].
  - etrans; [apply (proj1 (Hcombine 2%positive "+" 2%positive))|reflexivity].
Defined.

(** X5. Category calls on two different selectors do not see each other:
    each has the outcome it would have alone, and the two orders leave the
    same store. *)
Theorem calls_on_distinct_selectors_commute (h : heap) (a b : loc)
    (c1 c2 : call) :
  a ≠ b →
  (invoke a c1 (invoke b c2 h).2).1 = (invoke a c1 h).1 ∧
  (invoke b c2 (invoke a c1 h).2).1 = (invoke b c2 h).1 ∧
  (invoke a c1 (invoke b c2 h).2).2 = (invoke b c2 (invoke a c1 h).2).2.
Proof.
  intros Hne.
  destruct (invoke_local h a c1) as (ra & ua & Ha).
  destruct (invoke_local h b c2) as (rb & ub & Hb).
  rewrite (Ha h eq_refl), (Hb h eq_refl). cbn [fst snd].
  assert (Hab : ∀ h' : heap, h' !! a = h !! a →
            (match ub with Some s' => <[b := s']> h' | None => h' end : heap)
              !! a = h !! a).
  { intros h' Hh'. destruct ub; [by rewrite lookup_insert_ne|done]. }
  assert (Hba : ∀ h' : heap, h' !! b = h !! b →
            (match ua with Some s' => <[a := s']> h' | None => h' end : heap)
              !! b = h !! b).
  { intros h' Hh'. destruct ua; [by rewrite lookup_insert_ne|done]. }
  rewrite (Ha _ (Hab h eq_refl)), (Hb _ (Hba h eq_refl)). cbn [fst snd].
  split; [done|]. split; [done|].
  destruct ua, ub; try done. by apply insert_insert_ne.
Qed.

Lemma calls_on_distinct_selectors_commute_witness :
  let h : heap := {[ 1%positive := mkSelector "div" (JNum 1);
                     2%positive := mkSelector ".a" (JNum 3) ]} in
  (invoke 1%positive (Call CId "main") (invoke 2%positive (Call CId "late") h).2).2
  = (invoke 2%positive (Call CId "late") (invoke 1%positive (Call CId "main") h).2).2.
Proof.
  intros h.
  assert (Hne : 1%positive ≠ 2%positive) by discriminate.
  exact (proj2 (proj2 (calls_on_distinct_selectors_commute h 1%positive
                         2%positive (Call CId "main") (Call CId "late") Hne))).
Defined.

(** ** Combining *)

(** X6. The text of nested combinations does not depend on the nesting:
    [combine(combine(a, k1, b), k2, c)] and [combine(a, k1, combine(b, k2, c))]
    both stringify to the three texts in order with [k1] and [k2] between
    them, each between two spaces. *)
Theorem nested_combine_text (h : heap) (a b c : loc) (sa sb sc : Selector)
    (k1 k2 : string) :
  h !! a = Some sa → h !! b = Some sb → h !! c = Some sc →
  let out := line sa +:+ " " +:+ k1 +:+ " " +:+ line sb
             +:+ " " +:+ k2 +:+ " " +:+ line sc in
  ((ab ← cssSelectorBuilder.combine a k1 b;
    r ← cssSelectorBuilder.combine ab k2 c;
    MySuperBaseElementSelector.stringify r) h).1 = Return out ∧
  ((bc ← cssSelectorBuilder.combine b k2 c;
    r ← cssSelectorBuilder.combine a k1 bc;
    MySuperBaseElementSelector.stringify r) h).1 = Return out.
Proof.
  intros Ha Hb Hc out.
  pose proof (new_fresh h) as Hfresh.
  assert (a ≠ fresh (dom h)) by congruence.
  assert (b ≠ fresh (dom h)) by congruence.
  assert (c ≠ fresh (dom h)) by congruence.
  split.
  - unfold mbind at 1. unfold state_exn_bind.
    rewrite (facade_combine_run h a b sa sb k1 Ha Hb).
    unfold mbind at 1. unfold state_exn_bind.
    erewrite facade_combine_run;
      [|apply lookup_insert_eq|by rewrite lookup_insert_ne].
    unfold MySuperBaseElementSelector.stringify, read_line.
    rewrite lookup_insert_eq. cbn [fst line]. f_equal.
    subst out. by rewrite !append_assoc.
  - unfold mbind at 1. unfold state_exn_bind.
    rewrite (facade_combine_run h b c sb sc k2 Hb Hc).
    unfold mbind at 1. unfold state_exn_bind.
    erewrite facade_combine_run;
      [|by rewrite lookup_insert_ne|apply lookup_insert_eq].
    unfold MySuperBaseElementSelector.stringify, read_line.
    by rewrite lookup_insert_eq.
Qed.

Lemma nested_combine_text_witness :
  let h : heap := {[ 1%positive := mkSelector "div" (JNum 1);
                     2%positive := mkSelector "p" (JNum 1);
                     3%positive := mkSelector "a" (JNum 1) ]} in
  ((ab ← cssSelectorBuilder.combine 1%positive ">" 2%positive;
    r ← cssSelectorBuilder.combine ab "~" 3%positive;
    MySuperBaseElementSelector.stringify r) h).1 = Return "div > p ~ a" ∧
  ((bc ← cssSelectorBuilder.combine 2%positive "~" 3%positive;
    r ← cssSelectorBuilder.combine 1%positive ">" bc;
    MySuperBaseElementSelector.stringify r) h).1 = Return "div > p ~ a".
Proof.
  intros h.
  exact (nested_combine_text h 1%positive 2%positive 3%positive
           (mkSelector "div" (JNum 1)) (mkSelector "p" (JNum 1))
           (mkSelector "a" (JNum 1)) ">" "~" eq_refl eq_refl eq_refl).
Defined.

(** X7. [combine] called on a selector that already has a text and a
    numeric [prev] does not replace the text: the combined text is appended
    to it.  The texts of the arguments are read before the receiver is
    written, so a selector combined with itself contributes its old text. *)
Theorem combine_appends_to_receiver (h : heap) (this a b : loc)
    (s sa sb : Selector) (k : string) (p : Z) :
  h !! this = Some s → h !! a = Some sa → h !! b = Some sb →
  prev s = JNum p →
  let out := line s +:+ line sa +:+ " " +:+ k +:+ " " +:+ line sb in
  (r ← MySuperBaseElementSelector.combine this a k b;
   MySuperBaseElementSelector.stringify r) h
  = (Return out, <[this := mkSelector out JUndefined]> h).
Proof.
  intros Hs Ha Hb Hp out. unfold mbind at 1. unfold state_exn_bind.
  rewrite (combine_run _ _ _ _ _ _ _ _ Hs Ha Hb), Hp. cbn.
  unfold MySuperBaseElementSelector.stringify, read_line.
  by rewrite lookup_insert_eq.
Qed.

Lemma combine_appends_to_receiver_witness :
  let h : heap := {[ 1%positive := mkSelector "li" (JNum 1) ]} in
  (r ← MySuperBaseElementSelector.combine 1%positive 1%positive "+" 1%positive;
   MySuperBaseElementSelector.stringify r) h
  = (Return "lili + li", <[1%positive := mkSelector "lili + li" JUndefined]> h).
Proof.
  intros h.
  exact (combine_appends_to_receiver h 1%positive 1%positive 1%positive
           (mkSelector "li" (JNum 1)) (mkSelector "li" (JNum 1))
           (mkSelector "li" (JNum 1)) "+" 1 eq_refl eq_refl eq_refl eq_refl).
Defined.

(** ** The text never shrinks *)

Lemma perform_extends (h : heap) this s o :
  h !! this = Some s →
  ∃ s' suffix, (perform this o h).2 = <[this := s']> h ∧
               line s' = line s +:+ suffix.
Proof.
  intros Hs.
  assert (Hsame : ∃ s' suffix, h = <[this := s']> h ∧
                               line s' = line s +:+ suffix).
  { exists s, "". by rewrite insert_id, append_empty_r. }
  destruct o as [c|a k b|]; cbn [perform].
  - rewrite (invoke_run _ _ _ _ Hs).
    destruct (js_gt _ _); [done|]. destruct (_ && _); [done|].
    by do 2 eexists.
  - unfold MySuperBaseElementSelector.combine, mbind, state_exn_bind, read_line.
    destruct (h !! a) as [sa|]; [|done]. destruct (h !! b) as [sb|]; [|done].
    rewrite (setSelector_run _ _ _ _ _ _ Hs).
    destruct (js_gt _ _); [done|]. destruct (_ && _); [done|].
    by do 2 eexists.
  - unfold MySuperBaseElementSelector.stringify, read_line. by rewrite Hs.
Qed.

(** X8. Whatever is called on a selector (category methods, [combine],
    [stringify], accepted or rejected), its text is only ever extended at
    the end: afterwards it is the old text followed by a suffix, and the
    rest of the store is as it was. *)
Theorem history_extends_text (h : heap) (this : loc) (s : Selector)
    (ops : list op) :
  h !! this = Some s →
  ∃ s' suffix, (history this ops h).2 = <[this := s']> h ∧
               line s' = line s +:+ suffix.
Proof.
  revert h s. induction ops as [|o ops IH]; intros h s Hs.
  - exists s, "". cbn. by rewrite insert_id, append_empty_r.
  - cbn [history].
    destruct (perform_extends h this s o Hs) as (s1 & suf1 & Hh1 & Hl1).
    destruct (perform this o h) as [es h1]. cbn [snd] in Hh1. subst h1.
    destruct (IH (<[this := s1]> h) s1 (lookup_insert_eq _ _ _))
      as (s2 & suf2 & Hh2 & Hl2).
    destruct (history this ops (<[this := s1]> h)) as [es' h2].
    cbn [snd] in *. subst h2.
    exists s2, (suf1 +:+ suf2). split; [by rewrite insert_insert_eq|].
    by rewrite Hl2, Hl1, append_assoc.
Qed.

Lemma history_extends_text_witness :
  let h : heap := {[ 1%positive := mkSelector "div" (JNum 1) ]} in
  ∃ s' suffix,
    (history 1%positive
       [OpAppend (Call CClass "a"); OpAppend (Call CElement "p"); OpStringify]
       h).2 = <[1%positive := s']> h ∧
    line s' = "div" +:+ suffix.
Proof.
  intros h.
  exact (history_extends_text h 1%positive (mkSelector "div" (JNum 1))
           [OpAppend (Call CClass "a"); OpAppend (Call CElement "p"); OpStringify]
           eq_refl).
Defined.

(** ** What decides a call *)

(** X9. On a selector whose [prev] is the number [p], a category call of
    rank [r] raises [OrderError] exactly when [r < p], raises
    [DuplicateError] exactly when [r = p] and the category forbids
    duplicates, and is accepted exactly when [r > p], or [r = p] and the
    category allows duplicates; the text of the call plays no part. *)
Theorem call_outcome_decided_by_rank (h : heap) (this : loc) (s : Selector)
    (p : Z) (c : call) :
  h !! this = Some s → prev s = JNum p →
  ((invoke this c h).1 = Throw OrderError ↔ rank (cat c) < p) ∧
  ((invoke this c h).1 = Throw DuplicateError ↔
     rank (cat c) = p ∧ allows_duplicates (cat c) = false) ∧
  ((invoke this c h).1 = Return this ↔ legal_after p (cat c)).
Proof.
  intros Hs Hp. rewrite (invoke_run _ _ _ _ Hs), Hp, js_gt_num.
  unfold legal_after. cbn [js_strict_eq].
  destruct (Z.ltb_spec (rank (cat c)) p) as [Hlt|Hge]; cbn [fst].
  - split; [done|]. split; (split; [done|]).
    + intros [? _]. lia.
    + intros [?|[? _]]; lia.
  - destruct (Z.eqb_spec p (rank (cat c))) as [Heq|Hneq];
      destruct (allows_duplicates (cat c)) eqn:Hdup; cbn [negb andb fst].
    + split; [split; [done|lia]|]. split; [split; [done|by intros [_ ?]]|].
      split; [|done]. intros _. by right.
    + split; [split; [discriminate|lia]|]. split; [done|].
      split; [done|]. intros [?|[_ ?]]; [lia|done].
    + split; [split; [done|lia]|]. split; [split; [done|intros [? _]; lia]|].
      split; [|done]. intros _. left. lia.
    + split; [split; [done|lia]|]. split; [split; [done|intros [? _]; lia]|].
      split; [|done]. intros _. left. lia.
Qed.

Lemma call_outcome_decided_by_rank_witness :
  let h : heap := {[ 1%positive := mkSelector "div.a" (JNum 3) ]} in
  (invoke 1%positive (Call CClass "b") h).1 = Return 1%positive ∧
  (invoke 1%positive (Call CId "x") h).1 = Throw OrderError.
Proof.
  intros h. split.
  - apply (call_outcome_decided_by_rank h 1%positive
             (mkSelector "div.a" (JNum 3)) 3 (Call CClass "b") eq_refl eq_refl).
    right. by split.
  - apply (call_outcome_decided_by_rank h 1%positive
             (mkSelector "div.a" (JNum 3)) 3 (Call CId "x") eq_refl eq_refl).
    reflexivity.
Defined.

(** * Further properties of [fromJSON] and [Rectangle] *)

Section fromJSON_further.
Import Objects.

Variable parse_text : string → state_exn store value.

(** A text [JSON.parse] returns on is not empty, so it is truthy. *)
Lemma JSON_parse_return_truthy (json : string) (st st1 : store) (v : value) :
  JSON_parse parse_text json st = (Return v, st1) →
  to_boolean (VStr json) = true.
Proof.
  unfold JSON_parse. destruct (decide (json = "")) as [->|Hne]; [done|].
  intros _. cbn. by rewrite bool_decide_eq_false_2.
Qed.

(** X10. When [json] parses to a number, a string or a boolean and [proto]
    is an object or null, [fromJSON] returns that primitive as it is and
    writes nothing; when [json] parses to null (the text [null]),
    [fromJSON] raises [TypeError] whatever [proto] is, so it does not
    return null there. *)
Theorem fromJSON_of_primitive_text (proto : value) (json : string)
    (st st1 : store) (v : value) :
  JSON_parse parse_text json st = (Return v, st1) →
  (v = VNull → fromJSON parse_text proto json st = (Throw TypeError, st1)) ∧
  (∀ p, as_prototype proto = Some p →
     (∃ n, v = VNum n) ∨ (∃ t, v = VStr t) ∨ (∃ b, v = VBool b) →
     fromJSON parse_text proto json st = (Return v, st1)).
Proof.
  intros Hparse. pose proof (JSON_parse_return_truthy _ _ _ _ Hparse) as Hjson.
  rewrite fromJSON_run, Hjson, Hparse. cbn [negb andb]. split.
  - by intros ->.
  - intros p Hp [[n ->]|[[t ->]|[b ->]]];
      unfold Object_setPrototypeOf; by rewrite Hp.
Qed.

(** [new Rectangle(width, height)] in one step. *)
Lemma Rectangle_run (P : loc) (width height : value) (st : store) :
  Rectangle P width height st =
    (Return (VObj (fresh (dom st))),
     <[fresh (dom st) :=
         mkObject (Some P) (<["height" := height]> (<["width" := width]> ∅))]>
       st).
Proof.
  unfold Rectangle, allocate, set_property.
  unfold mbind, state_exn_bind, mret, state_exn_ret.
  rewrite !lookup_insert_eq. cbn [prototype own].
  by rewrite !insert_insert_eq.
Qed.

(** X11. [fromJSON(Rectangle.prototype, json)], for a [json] that parses to
    an object whose own properties are exactly [width] and [height], returns
    an object equal to the one [new Rectangle(width, height)] creates: the
    same own properties and the same prototype, so [getArea] is found on
    both through [Rectangle.prototype]. *)
Theorem fromJSON_agrees_with_Rectangle (P : loc) (json : string)
    (st st1 st0 : store) (o : loc) (ob : object) (w hgt : value) :
  JSON_parse parse_text json st = (Return (VObj o), st1) →
  st1 !! o = Some ob →
  own ob = {[ "width" := w; "height" := hgt ]} →
  ∃ st2 r st3,
    fromJSON parse_text (VObj P) json st = (Return (VObj o), st2) ∧
    Rectangle P w hgt st0 = (Return (VObj r), st3) ∧
    st2 !! o = st3 !! r ∧
    (∀ key n, key ≠ "width" → key ≠ "height" →
       Get (S n) st2 (Some o) key = Get n st2 (Some P) key ∧
       Get (S n) st3 (Some r) key = Get n st3 (Some P) key).
Proof.
  intros Hparse Ho Hown.
  rewrite fromJSON_run, Hparse. cbn [to_boolean negb andb].
  rewrite andb_false_r. unfold Object_setPrototypeOf. cbn [as_prototype].
  rewrite Ho, Rectangle_run, Hown.
  do 3 eexists. split; [done|]. split; [done|].
  assert (Hsame : ({[ "width" := w; "height" := hgt ]} : gmap string value)
                  = <["height" := hgt]> (<["width" := w]> ∅)).
  { rewrite insert_empty. by apply insert_insert_ne. }
  split; [by rewrite !lookup_insert_eq, Hsame|].
  intros key n Hw Hh. split.
  - cbn [Get]. rewrite lookup_insert_eq. cbn [own prototype].
    by rewrite lookup_insert_ne, lookup_singleton_ne.
  - cbn [Get]. rewrite lookup_insert_eq. cbn [own prototype].
    by rewrite !lookup_insert_ne, lookup_empty.
Qed.

End fromJSON_further.

Lemma fromJSON_of_primitive_text_witness :
  Objects.fromJSON Objects.literal_parse (Objects.VObj 3%positive) "5"
    Objects.sample_store
  = (Return (Objects.VNum 5), Objects.sample_store) ∧
  Objects.fromJSON Objects.literal_parse (Objects.VObj 3%positive) "null"
    Objects.sample_store
  = (Throw TypeError, Objects.sample_store).
Proof.
  split.
  - apply (proj2 (fromJSON_of_primitive_text Objects.literal_parse
                    (Objects.VObj 3%positive) "5" Objects.sample_store
                    Objects.sample_store (Objects.VNum 5) eq_refl)
             (Some 3%positive) eq_refl).
    left. by exists 5.
  - by apply (proj1 (fromJSON_of_primitive_text Objects.literal_parse
                       (Objects.VObj 3%positive) "null" Objects.sample_store
                       Objects.sample_store Objects.VNull eq_refl)).
Defined.

Lemma fromJSON_agrees_with_Rectangle_witness :
  ∃ st2 r st3,
    Objects.fromJSON Objects.sample_parse (Objects.VObj 3%positive)
      Objects.sample_text Objects.sample_store
    = (Return (Objects.VObj 4%positive), st2) ∧
    Objects.Rectangle 3%positive (Objects.VNum 10) (Objects.VNum 20)
      Objects.sample_store
    = (Return (Objects.VObj r), st3) ∧
    st2 !! 4%positive = st3 !! r.
Proof.
  destruct (fromJSON_agrees_with_Rectangle Objects.sample_parse 3%positive
              Objects.sample_text Objects.sample_store
              (<[4%positive :=
                   Objects.mkObject (Some 1%positive)
                     {[ "width" := Objects.VNum 10;
                        "height" := Objects.VNum 20 ]}]> Objects.sample_store)
              Objects.sample_store 4%positive
              (Objects.mkObject (Some 1%positive)
                 {[ "width" := Objects.VNum 10; "height" := Objects.VNum 20 ]})
              (Objects.VNum 10) (Objects.VNum 20))
    as (st2 & r & st3 & H1 & H2 & H3 & _); [reflexivity..|].
  exists st2, r, st3. by repeat split.
Defined.
